(** * ResumeAI content script: job-description extraction

    A shallow embedding of [content.js] (the injected IIFE
    [extractJobDescription] and its helper [collapseWhitespace]) together
    with the properties of its three extraction tiers.

    Modelling conventions
    - A JavaScript string is the list of its UTF-16 code units ([N]);
      [str.length] is [length], [str.slice(0, n)] is [firstn n].
    - An element is described by what the script reads from it: its name
      (prefix, local name, whether it is in the HTML namespace and whether
      its document is an HTML document), attributes, computed [display] and
      [visibility], the [innerText] and [textContent] strings supplied by the
      rendering engine, and its element children.  [tagName] is the
      qualified name, ASCII-uppercased only for an HTML-namespace element of
      an HTML document; an element without [innerText] (not an HTML element)
      has the empty string there, which [||] treats like [undefined].
      Selectors are matched in no-quirks mode.
    - [document.querySelector] / [querySelectorAll] walk the element tree in
      document (pre-) order.
    - A call either returns a string or throws ([completion]). *)

From Stdlib Require Import String Ascii List NArith ZArith Bool Arith Lia.
Import ListNotations.

Set Warnings "-abstract-large-number".

(* ================================================================== *)
(** ** JavaScript strings *)
(* ================================================================== *)

Definition char := N.
Definition jsstring := list char.

Definition TAB : char := 9%N.
Definition LF  : char := 10%N.
Definition CR  : char := 13%N.
Definition SP  : char := 32%N.

(** An ASCII source literal as a JavaScript string. *)
Definition lit (s : string) : jsstring :=
  map N_of_ascii (list_ascii_of_string s).

Fixpoint jseqb (a b : jsstring) : bool :=
  match a, b with
  | [], [] => true
  | x :: a', y :: b' => N.eqb x y && jseqb a' b'
  | _, _ => false
  end.

(** [a || b] on strings: the empty string is falsy. *)
Definition js_or (a b : jsstring) : jsstring :=
  match a with
  | [] => b
  | _ :: _ => a
  end.

(** [prefixb p s]: [s] starts with [p]. *)
Fixpoint prefixb (p s : jsstring) : bool :=
  match p, s with
  | [], _ => true
  | x :: p', y :: s' => N.eqb x y && prefixb p' s'
  | _ :: _, [] => false
  end.

(** [occurs p s]: [p] occurs in [s] as a contiguous substring. *)
Fixpoint occurs (p s : jsstring) : bool :=
  prefixb p s ||
  match s with
  | [] => false
  | _ :: s' => occurs p s'
  end.

(** ECMAScript WhiteSpace and LineTerminator code points, the set removed
    by [String.prototype.trim]. *)
Definition isWhiteSpace (c : char) : bool :=
  existsb (N.eqb c)
    [9; 10; 11; 12; 13; 32; 160; 5760; 8232; 8233; 8239; 8287; 12288; 65279]%N
  || (N.leb 8192 c && N.leb c 8202).

(* ------------------------------------------------------------------ *)
(** *** The five steps of [collapseWhitespace] *)

(** [.replace(/\r\n/g, "\n")] *)
Fixpoint replace_crlf (s : jsstring) : jsstring :=
  match s with
  | [] => []
  | c :: tl =>
      match tl with
      | d :: rest =>
          if N.eqb c CR && N.eqb d LF
          then LF :: replace_crlf rest
          else c :: replace_crlf tl
      | [] => [c]
      end
  end.

(** [.replace(/\t/g, " ")] *)
Definition replace_tabs (s : jsstring) : jsstring :=
  map (fun c => if N.eqb c TAB then SP else c) s.

(** [.replace(/c{min,}/g, repl)] for a single character [c]: a left-to-right
    scan that counts the current maximal run of [c]; when the run ends it is
    replaced by [repl] if it has at least [min] characters and is copied
    unchanged otherwise. *)
Section ReplaceRuns.
Variables (c : char) (min : nat) (repl : jsstring).

Definition flush_run (n : nat) : jsstring :=
  if min <=? n then repl else repeat c n.

Fixpoint replace_runs_from (n : nat) (s : jsstring) : jsstring :=
  match s with
  | [] => flush_run n
  | x :: tl =>
      if N.eqb x c
      then replace_runs_from (S n) tl
      else flush_run n ++ x :: replace_runs_from 0 tl
  end.

Definition replace_runs (s : jsstring) : jsstring := replace_runs_from 0 s.
End ReplaceRuns.

(** [.trim()] *)
Fixpoint trim_start (s : jsstring) : jsstring :=
  match s with
  | [] => []
  | c :: tl => if isWhiteSpace c then trim_start tl else s
  end.

Fixpoint trim_end (s : jsstring) : jsstring :=
  match s with
  | [] => []
  | c :: tl =>
      match trim_end tl with
      | [] => if isWhiteSpace c then [] else [c]
      | r => c :: r
      end
  end.

Definition trim (s : jsstring) : jsstring := trim_end (trim_start s).

Definition collapseWhitespace (str : jsstring) : jsstring :=
  trim
    (replace_runs LF 3 [LF; LF]
       (replace_runs SP 2 [SP]
          (replace_tabs
             (replace_crlf str)))).

(** The intermediate results of the pipeline. *)
Definition step1 (x : jsstring) := replace_crlf x.
Definition step2 (x : jsstring) := replace_tabs (step1 x).
Definition step3 (x : jsstring) := replace_runs SP 2 [SP] (step2 x).
Definition step4 (x : jsstring) := replace_runs LF 3 [LF; LF] (step3 x).

(* ------------------------------------------------------------------ *)
(** *** Observations on strings used in the statements *)

(** Number of leading occurrences of [c]. *)
Fixpoint lead (c : char) (s : jsstring) : nat :=
  match s with
  | [] => 0
  | x :: tl => if N.eqb x c then S (lead c tl) else 0
  end.

(** [runs_le c k s]: no run of more than [k] consecutive [c] in [s]. *)
Fixpoint runs_le (c : char) (k : nat) (s : jsstring) : bool :=
  match s with
  | [] => true
  | _ :: tl => (lead c s <=? k) && runs_le c k tl
  end.

(** [adjb a b s]: somewhere in [s] an [a] is immediately followed by [b]. *)
Fixpoint adjb (a b : char) (s : jsstring) : bool :=
  match s with
  | [] => false
  | x :: tl =>
      match tl with
      | [] => false
      | y :: _ => (N.eqb x a && N.eqb y b) || adjb a b tl
      end
  end.

Definition has_char (c : char) (s : jsstring) : bool := existsb (N.eqb c) s.

Definition starts_ws (s : jsstring) : bool :=
  match s with
  | [] => false
  | c :: _ => isWhiteSpace c
  end.

Fixpoint ends_ws (s : jsstring) : bool :=
  match s with
  | [] => false
  | c :: tl =>
      match tl with
      | [] => isWhiteSpace c
      | _ :: _ => ends_ws tl
      end
  end.

(** Every carriage return is immediately followed by a line feed. *)
Fixpoint cr_only_in_crlf (s : jsstring) : bool :=
  match s with
  | [] => true
  | c :: tl =>
      (if N.eqb c CR
       then match tl with d :: _ => N.eqb d LF | [] => false end
       else true)
      && cr_only_in_crlf tl
  end.

(** The result contract of the data model: no tab, no run of three or more
    newlines, no leading and no trailing whitespace. *)
Definition whitespace_normalized (s : jsstring) : bool :=
  negb (has_char TAB s) && negb (occurs [LF; LF; LF] s)
  && negb (starts_ws s) && negb (ends_ws s).

(* ================================================================== *)
(** ** The document element tree *)
(* ================================================================== *)

(** One element as the script observes it: its name and attributes, the
    two computed-style properties it reads, the two text accessors and its
    element children. *)
#[warning="-register-all"]
Inductive element : Type :=
  Element {
    prefix      : option jsstring;   (* namespace prefix, if any *)
    localName   : jsstring;
    htmlNamespace : bool;            (* element is in the HTML namespace *)
    htmlDocument  : bool;            (* its node document is an HTML document *)
    attributes  : list (jsstring * jsstring);
    display     : jsstring;   (* getComputedStyle(el).display *)
    visibility  : jsstring;   (* getComputedStyle(el).visibility *)
    innerText   : jsstring;
    textContent : jsstring;
    children    : list element
  }.

Record document : Type := Document { documentElement : element }.

Definition ascii_upper (c : char) : char :=
  if N.leb 97 c && N.leb c 122 then (c - 32)%N else c.

(** The qualified name: [prefix:localName], or the local name alone. *)
Definition qualifiedName (e : element) : jsstring :=
  match prefix e with
  | Some p => p ++ [58%N] ++ localName e
  | None => localName e
  end.

(** [el.tagName]: the qualified name, ASCII-uppercased when the element is
    in the HTML namespace and its document is an HTML document. *)
Definition tagName (e : element) : jsstring :=
  if htmlNamespace e && htmlDocument e
  then map ascii_upper (qualifiedName e)
  else qualifiedName e.

(** All elements of a subtree in document order. *)
Fixpoint preorder (e : element) : list element :=
  match e with
  | Element _ _ _ _ _ _ _ _ _ cs => e :: flat_map preorder cs
  end.

Definition elements (doc : document) : list element :=
  preorder (documentElement doc).

(** An element of the HTML namespace with the given local name. *)
Definition isHTMLElement (name : string) (e : element) : bool :=
  htmlNamespace e && jseqb (localName e) (lit name).

(** [document.body]: the first [body] or [frameset] child of the [html]
    root element, [null] when there is none. *)
Definition body (doc : document) : option element :=
  let root := documentElement doc in
  if isHTMLElement "html" root
  then find (fun c => isHTMLElement "body" c || isHTMLElement "frameset" c)
            (children root)
  else None.

(* ------------------------------------------------------------------ *)
(** *** Selectors *)

(** The selector forms that occur in the script. *)
Inductive selector : Type :=
| TypeSel (name : string)               (* name          *)
| ClassSel (name : string)              (* .name         *)
| IdSel (ident : string)                (* #ident        *)
| AttrEq (attr value : string)          (* [attr='v']    *)
| AttrContains (attr value : string).   (* [attr*='v']   *)

Definition getAttribute (name : jsstring) (e : element) : option jsstring :=
  option_map snd (find (fun kv => jseqb (fst kv) name) (attributes e)).

Definition isAsciiWhitespace (c : char) : bool :=
  existsb (N.eqb c) [9; 10; 12; 13; 32]%N.

(** The whitespace-separated tokens of a [class] attribute value. *)
Fixpoint tokens_from (cur s : jsstring) : list jsstring :=
  match s with
  | [] => match cur with [] => [] | _ => [cur] end
  | x :: tl =>
      if isAsciiWhitespace x
      then match cur with
           | [] => tokens_from [] tl
           | _ => cur :: tokens_from [] tl
           end
      else tokens_from (cur ++ [x]) tl
  end.

Definition classList (e : element) : list jsstring :=
  match getAttribute (lit "class") e with
  | Some v => tokens_from [] v
  | None => []
  end.

Definition matches (sel : selector) (e : element) : bool :=
  match sel with
  | TypeSel n => jseqb (localName e) (lit n)
  | ClassSel n => existsb (jseqb (lit n)) (classList e)
  | IdSel i =>
      match getAttribute (lit "id") e with
      | Some v => jseqb v (lit i)
      | None => false
      end
  | AttrEq a v =>
      match getAttribute (lit a) e with
      | Some w => jseqb w (lit v)
      | None => false
      end
  | AttrContains a v =>
      match getAttribute (lit a) e with
      | Some w => occurs (lit v) w
      | None => false
      end
  end.

(** [document.querySelectorAll("s1, s2, ...")] *)
Definition querySelectorAll (sels : list selector) (doc : document)
  : list element :=
  filter (fun e => existsb (fun s => matches s e) sels) (elements doc).

(** [document.querySelector(sel)]: the first match in document order. *)
Definition querySelector (sel : selector) (doc : document) : option element :=
  find (matches sel) (elements doc).

(* ================================================================== *)
(** ** [extractJobDescription] *)
(* ================================================================== *)

Inductive error : Type := TypeError.

Inductive completion : Type :=
| Return (s : jsstring)
| Throw (e : error).

Definition KNOWN_SELECTORS : list selector :=
  [ (* LinkedIn *)
    ClassSel "jobs-description__content";
    ClassSel "jobs-box__html-content";
    (* Indeed *)
    IdSel "jobDescriptionText";
    ClassSel "jobsearch-jobDescriptionText";
    (* Greenhouse *)
    IdSel "content";
    ClassSel "job__description";
    (* Lever *)
    ClassSel "posting-description";
    ClassSel "section-wrapper";
    (* Workday *)
    AttrEq "data-automation-id" "jobPostingDescription";
    (* Workable *)
    ClassSel "job-description";
    (* SmartRecruiters *)
    ClassSel "job-sections";
    (* Ashby *)
    ClassSel "ashby-job-posting-brief-description";
    (* Generic fallbacks *)
    AttrContains "class" "job-description";
    AttrContains "class" "jobDescription";
    AttrContains "class" "job_description";
    AttrContains "id" "job-description";
    AttrContains "id" "jobDescription";
    TypeSel "article";
    TypeSel "main" ].

Definition MIN_LENGTH : nat := 200.

Definition BLOCK_TAGS : list jsstring :=
  map lit ["DIV"; "SECTION"; "ARTICLE"; "MAIN"; "P"; "UL"; "OL"; "TABLE"]%string.

Definition SKIP_TAGS : list jsstring :=
  map lit ["SCRIPT"; "STYLE"; "NOSCRIPT"; "IFRAME";
           "HEADER"; "FOOTER"; "NAV"; "ASIDE"; "FORM"]%string.

Definition has (set : list jsstring) (x : jsstring) : bool :=
  existsb (jseqb x) set.

(** [collapseWhitespace(el.innerText || el.textContent || "")] *)
Definition elementText (el : element) : jsstring :=
  collapseWhitespace (js_or (js_or (innerText el) (textContent el)) []).

(** Tier 1: the loop over the selectors still to be tried. *)
Fixpoint selectorTier (sels : list selector) (doc : document)
  : option jsstring :=
  match sels with
  | [] => None
  | sel :: rest =>
      match querySelector sel doc with
      | None => selectorTier rest doc
      | Some el =>
          let text := elementText el in
          if MIN_LENGTH <=? length text
          then Some text
          else selectorTier rest doc
      end
  end.

(** Tier 2: one iteration of the scan over the candidates; the state is
    [(bestElement, bestLength)]. *)
Definition hidden (el : element) : bool :=
  jseqb (display el) (lit "none") || jseqb (visibility el) (lit "hidden").

Definition directBlockChildren (el : element) : nat :=
  length (filter (fun c => has BLOCK_TAGS (tagName c)) (children el)).

Definition scanStep (st : option element * nat) (el : element)
  : option element * nat :=
  if hidden el then st
  else if has SKIP_TAGS (tagName el) then st
  else if 12 <? directBlockChildren el then st
  else
    let text := elementText el in
    if snd st <? length text then (Some el, length text) else st.

Definition candidates (doc : document) : list element :=
  querySelectorAll [TypeSel "div"; TypeSel "section";
                    TypeSel "article"; TypeSel "main"] doc.

Definition scan (doc : document) : option element * nat :=
  fold_left scanStep (candidates doc) (None, 0).

(** Tier 3: [collapseWhitespace(document.body.innerText || "").slice(0, 8000)];
    reading a property of [null] throws. *)
Definition lastResort (doc : document) : completion :=
  match body doc with
  | None => Throw TypeError
  | Some b =>
      let bodyText := collapseWhitespace (js_or (innerText b) []) in
      Return (firstn 8000 bodyText)
  end.

Definition heuristicTier (doc : document) : completion :=
  match scan doc with
  | (Some bestElement, bestLength) =>
      if MIN_LENGTH <=? bestLength
      then Return (collapseWhitespace
                     (js_or (innerText bestElement) (textContent bestElement)))
      else lastResort doc
  | (None, _) => lastResort doc
  end.

Definition extractJobDescription (doc : document) : completion :=
  match selectorTier KNOWN_SELECTORS doc with
  | Some text => Return text
  | None => heuristicTier doc
  end.

(* ------------------------------------------------------------------ *)
(** *** Observations on documents used in the statements *)

(** The selector's first match has at least [MIN_LENGTH] normalized
    characters. *)
Definition qualifies (doc : document) (sel : selector) : bool :=
  match querySelector sel doc with
  | Some el => MIN_LENGTH <=? length (elementText el)
  | None => false
  end.

(** The elements that survive the three rejections of the scan. *)
Definition eligible (el : element) : bool :=
  negb (hidden el) && negb (has SKIP_TAGS (tagName el))
  && (directBlockChildren el <=? 12).

Definition heuristicCandidates (doc : document) : list element :=
  filter eligible (candidates doc).

(** Replace the computed style of every element of a subtree. *)
Fixpoint restyle (g : element -> jsstring * jsstring) (e : element) : element :=
  match e with
  | Element p n hn hd a d v i t cs =>
      Element p n hn hd a (fst (g e)) (snd (g e)) i t (map (restyle g) cs)
  end.

Definition restyleDocument (g : element -> jsstring * jsstring)
  (doc : document) : document :=
  Document (restyle g (documentElement doc)).

Definition returned (r : completion) : option jsstring :=
  match r with
  | Return s => Some s
  | Throw _ => None
  end.

(** The comparison made by the scan once an element has passed the three
    rejections. *)
Definition pick (st : option element * nat) (el : element)
  : option element * nat :=
  if snd st <? length (elementText el)
  then (Some el, length (elementText el))
  else st.

(** The last-resort capture actually cuts the normalized body text. *)
Definition truncates (doc : document) : bool :=
  negb (existsb (qualifies doc) KNOWN_SELECTORS)
  && forallb (fun e => length (elementText e) <? MIN_LENGTH)
             (heuristicCandidates doc)
  && match body doc with
     | Some b => 8000 <? length (collapseWhitespace (js_or (innerText b) []))
     | None => false
     end.

(* ------------------------------------------------------------------ *)
(** *** Sample pages *)

Definition a_ : char := 97%N.
Definition b_ : char := 98%N.

Definition attr (name value : string) : string * string := (name, value).

Definition node (name : string) (attrs : list (string * string))
  (text : jsstring) (kids : list element) : element :=
  Element None (lit name) true true
          (map (fun kv => (lit (fst kv), lit (snd kv))) attrs)
          (lit "block") (lit "visible") text text kids.

Definition page (kids : list element) (text : jsstring) : document :=
  Document (node "html" [] text [node "head" [] [] []; node "body" [] text kids]).

(** An Indeed-style container of 300 characters next to an unrelated block
    of 1000 characters. *)
Definition doc_selector_vs_block : document :=
  page [ node "div" [attr "id" "jobDescriptionText"] (repeat a_ 300) [];
         node "div" [] (repeat b_ 1000) [] ]
       (repeat a_ 300 ++ [LF] ++ repeat b_ 1000).

(** The same page with every element hidden. *)
Definition hide_all (e : element) : jsstring * jsstring :=
  (lit "none", lit "hidden").

(** No known container; two blocks of equal length 250 after a shorter one. *)
Definition doc_blocks : document :=
  page [ node "div" [] (repeat a_ 210) [];
         node "section" [] (repeat a_ 250) [];
         node "div" [] (repeat b_ 250) [] ]
       (repeat a_ 210 ++ [LF] ++ repeat a_ 250 ++ [LF] ++ repeat b_ 250).

(** A 50-character paragraph inside a chain of three wrappers. *)
Definition doc_short : document :=
  page [ node "div" [] (repeat a_ 50)
           [ node "div" [] (repeat a_ 50)
               [ node "div" [] (repeat a_ 50)
                   [ node "p" [] (repeat a_ 50) [] ] ] ] ]
       (repeat a_ 50).

(** Body text of 8001 characters whose 8000th character is a space. *)
Definition doc_cut_at_space : document :=
  page [] (repeat a_ 7999 ++ [SP; b_]).

(** A standalone SVG image: the root is not [html], so there is no body. *)
Definition doc_svg : document :=
  Document (Element None (lit "svg") false false []
              (lit "inline") (lit "visible") [] [] []).

(** An HTML document whose [body] element has been removed. *)
Definition doc_without_body : document :=
  Document (node "html" [] [] [node "head" [] [] []]).

(** Two [article] elements: a short teaser first, the posting second. *)
Definition doc_two_articles : document :=
  page [ node "article" [] (repeat a_ 40) [];
         node "article" [] (repeat b_ 300) [] ]
       (repeat a_ 40 ++ [LF] ++ repeat b_ 300).

Definition text_crcrlf : jsstring := [a_; CR; CR; LF; b_].
Definition text_lone_cr : jsstring := [a_; CR; b_].
Definition text_windows : jsstring :=
  lit "Job Title" ++ [CR; LF; CR; LF; CR; LF; TAB] ++ lit "Apply   now."
  ++ [CR; LF].
Definition text_example : jsstring :=
  lit "Job Title" ++ [LF; LF; LF; LF] ++ lit "We need a builder.   Apply now.".

(* ------------------------------------------------------------------ *)
(** *** Further observations *)

Definition notWhiteSpace (c : char) : bool := negb (isWhiteSpace c).

(** The non-whitespace characters of a string, in order. *)
Definition content (s : jsstring) : jsstring := filter notWhiteSpace s.

(** A string is in normal form: no CRLF pair, no tab, no two spaces, no
    three newlines in a row, no whitespace at either end. *)
Definition normal_form (s : jsstring) : bool :=
  negb (occurs [CR; LF] s) && negb (has_char TAB s)
  && negb (occurs [SP; SP] s) && negb (occurs [LF; LF; LF] s)
  && negb (starts_ws s) && negb (ends_ws s).

(** A non-empty string with no whitespace at either end. *)
Definition piece (p : jsstring) : Prop :=
  p <> [] /\ starts_ws p = false /\ ends_ws p = false.

(** Where a returned string comes from. *)
Inductive provenance (doc : document) (s : jsstring) : Prop :=
| FromSelector (sel : selector) (e : element) :
    In sel KNOWN_SELECTORS -> querySelector sel doc = Some e ->
    s = elementText e -> MIN_LENGTH <= length s -> provenance doc s
| FromHeuristic (e : element) :
    existsb (qualifies doc) KNOWN_SELECTORS = false ->
    In e (heuristicCandidates doc) ->
    s = elementText e -> MIN_LENGTH <= length s -> provenance doc s
| FromLastResort (b : element) :
    existsb (qualifies doc) KNOWN_SELECTORS = false ->
    forallb (fun e => length (elementText e) <? MIN_LENGTH)
            (heuristicCandidates doc) = true ->
    body doc = Some b ->
    s = firstn 8000 (collapseWhitespace (js_or (innerText b) [])) ->
    provenance doc s.

(** A page whose rendered text is blank. *)
Definition doc_blank : document := page [] [SP; LF; TAB].

(** A page whose only block has 13 paragraphs and 390 characters. *)
Definition doc_wrapper : document :=
  page [ node "div" [] (repeat a_ 390)
           (repeat (node "p" [] (repeat a_ 30) []) 13) ]
       (repeat a_ 390).

(* ================================================================== *)
(** ** The tree-walking version of the content script *)
(* ================================================================== *)

(** The earlier [content.js] walks the nodes below [document.body], collects
    the trimmed text of every text node outside hidden and boilerplate
    elements, joins the pieces with newlines and cleans the result. *)
Module TreeWalk.

(** A node as the walk observes it: a text node with its data, an element
    with its tag name, the two computed-style properties and its child
    nodes, or a node of another type (comment, ...). *)
#[warning="-register-all"]
Inductive node : Type :=
| Text (textContent : jsstring)
| Elem (tagName display visibility : jsstring) (childNodes : list node)
| Other.

Record document : Type := Document { body : option node }.

Definition SKIP_TAGS : list jsstring :=
  map lit ["SCRIPT"; "STYLE"; "NOSCRIPT"; "IFRAME";
           "HEADER"; "FOOTER"; "NAV"; "ASIDE"]%string.

(** [collectText(node, parts)]: the array [parts] after the call. *)
Fixpoint collectText (n : node) (parts : list jsstring) : list jsstring :=
  match n with
  | Elem tag d v kids =>
      if jseqb d (lit "none") || jseqb v (lit "hidden") then parts
      else if has SKIP_TAGS tag then parts
      else fold_left (fun ps child => collectText child ps) kids parts
  | Text data =>
      let text := trim data in
      if 0 <? length text then parts ++ [text] else parts
  | Other => parts
  end.

(** [parts.join(sep)] *)
Fixpoint join (sep : jsstring) (parts : list jsstring) : jsstring :=
  match parts with
  | [] => []
  | p :: rest =>
      match rest with
      | [] => p
      | _ :: _ => p ++ sep ++ join sep rest
      end
  end.

Definition clean (rawText : jsstring) : jsstring :=
  trim
    (replace_runs SP 2 [SP]
       (replace_runs LF 3 [LF; LF] rawText)).

Definition extractJobDescription (doc : document) : completion :=
  match body doc with
  | None => Throw TypeError
  | Some b =>
      let parts := collectText b [] in
      let rawText := join [LF] parts in
      Return (clean rawText)
  end.

(** A posting with a navigation bar, a hidden banner and a comment. *)
Definition sample : document :=
  Document (Some
    (Elem (lit "BODY") (lit "block") (lit "visible")
       [ Elem (lit "NAV") (lit "block") (lit "visible")
           [Text (lit "Home  Jobs")];
         Other;
         Elem (lit "DIV") (lit "none") (lit "visible")
           [Text (lit "Subscribe")];
         Elem (lit "H1") (lit "block") (lit "visible")
           [Text ([LF; SP] ++ lit "Builder" ++ [SP; SP])];
         Text [LF; SP; SP; LF];
         Elem (lit "P") (lit "block") (lit "visible")
           [Text (lit "We  need" ++ [TAB] ++ lit "a builder.")] ])).

End TreeWalk.

(* ================================================================== *)
(** ** The popup: what it does with the scraped text *)
(* ================================================================== *)

Module Popup.

(** [text.split(/\s+/)]: the pieces between maximal runs of whitespace;
    [cur] is the piece being read, [in_run] tells that the previous
    character was whitespace. *)
Fixpoint split_ws_from (cur : jsstring) (in_run : bool) (s : jsstring)
  : list jsstring :=
  match s with
  | [] => [cur]
  | c :: tl =>
      if isWhiteSpace c
      then if in_run then split_ws_from [] true tl
           else cur :: split_ws_from [] true tl
      else split_ws_from (cur ++ [c]) false tl
  end.

Definition split_ws (text : jsstring) : list jsstring :=
  split_ws_from [] false text.

Inductive status : Type :=
| Warn
| Success (wordCount : nat).

(** [results?.[0]?.result ?? ""] *)
Definition scrapedText (results : option (list (option jsstring))) : jsstring :=
  match results with
  | Some (Some text :: _) => text
  | _ => []
  end.

(** [autoScrapeJobDescription] once [executeScript] has resolved: the status
    shown and the new value of [scrapedJobText]. *)
Definition autoScrapeJobDescription
    (results : option (list (option jsstring)))
    (scrapedJobText : option jsstring) : status * option jsstring :=
  let text := scrapedText results in
  if length text <? 150 then (Warn, scrapedJobText)
  else (Success (length (split_ws text)), Some text).




End Popup.

(* ================================================================== *)
(** ** The serverless function [api/generate.js] *)
(* ================================================================== *)

Module Backend.

Section Values.

(** JavaScript numbers are kept abstract. *)
Variable number : Type.

(** The values a parsed JSON text or a missing property can be. *)
#[warning="-register-all"]
Inductive value : Type :=
| VUndefined
| VNull
| VBool (b : bool)
| VNumber (n : number)
| VString (s : jsstring)
| VArray (items : list value)
| VObject (fields : list (jsstring * value)).

(** [JSON.parse]; [None] when it throws. *)
Variable JSON_parse : jsstring -> option value.
(** Truthiness of a number, and
    [Math.max(0, Math.min(100, Math.round(x)))]. *)
Variable numberTruthy : number -> bool.
Variable clampScore : number -> number.
Variable zero : number.

Definition LBRACE : char := 123%N.
Definition RBRACE : char := 125%N.

(** [s.indexOf(c)] for a one-character search string. *)
Fixpoint indexOf (c : char) (s : jsstring) : Z :=
  match s with
  | [] => (-1)%Z
  | x :: tl =>
      if N.eqb x c then 0%Z
      else let r := indexOf c tl in
           if Z.eqb r (-1) then (-1)%Z else (r + 1)%Z
  end.

(** [s.lastIndexOf(c)] for a one-character search string. *)
Fixpoint lastIndexOf (c : char) (s : jsstring) : Z :=
  match s with
  | [] => (-1)%Z
  | x :: tl =>
      let r := lastIndexOf c tl in
      if Z.eqb r (-1)
      then if N.eqb x c then 0%Z else (-1)%Z
      else (r + 1)%Z
  end.

(** [s.slice(a, b)] *)
Definition slice (s : jsstring) (a b : Z) : jsstring :=
  let len := Z.of_nat (length s) in
  let from := if Z.ltb a 0 then Z.max (len + a) 0 else Z.min a len in
  let to := if Z.ltb b 0 then Z.max (len + b) 0 else Z.min b len in
  firstn (Z.to_nat (to - from)) (skipn (Z.to_nat from) s).

Definition parseOrNull (text : jsstring) : value :=
  match JSON_parse text with
  | Some v => v
  | None => VNull
  end.

Definition extractJsonObject (text : value) : value :=
  match text with
  | VString t =>
      let trimmed := trim t in
      match JSON_parse trimmed with
      | Some v => v
      | None =>
          let firstBrace := indexOf LBRACE trimmed in
          let lastBrace := lastIndexOf RBRACE trimmed in
          if Z.eqb firstBrace (-1) || Z.eqb lastBrace (-1)
             || Z.leb lastBrace firstBrace
          then VNull
          else
            let candidate := slice trimmed firstBrace (lastBrace + 1) in
            parseOrNull candidate
      end
  | _ => VNull
  end.

(** Property access on a parsed value: own fields of an object, nothing on
    anything else. *)
Definition getField (name : string) (v : value) : value :=
  match v with
  | VObject fields =>
      match find (fun kv => jseqb (fst kv) (lit name)) fields with
      | Some kv => snd kv
      | None => VUndefined
      end
  | _ => VUndefined
  end.

Definition truthy (v : value) : bool :=
  match v with
  | VUndefined | VNull => false
  | VBool b => b
  | VNumber n => numberTruthy n
  | VString s => match s with [] => false | _ => true end
  | VArray _ | VObject _ => true
  end.

(** [typeof s === "string" && s.trim()] *)
Definition isKeyword (v : value) : bool :=
  match v with
  | VString s => match trim s with [] => false | _ => true end
  | _ => false
  end.

(** [s.trim()], applied to the strings that passed the filter. *)
Definition trimString (v : value) : jsstring :=
  match v with
  | VString s => trim s
  | _ => []
  end.

(** [Array.isArray(x) ? x.filter(...).map((s) => s.trim()) : []] *)
Definition keywordList (x : value) : list jsstring :=
  match x with
  | VArray items => map trimString (filter isKeyword items)
  | _ => []
  end.

Record atsScore : Type := AtsScore {
  score : number;
  matchedKeywords : list jsstring;
  missingKeywords : list jsstring;
  advice : jsstring
}.

Definition buildAtsScore (atsObj : value) : atsScore :=
  {| score := match getField "score" atsObj with
              | VNumber n => clampScore n
              | _ => zero
              end;
     matchedKeywords := keywordList (getField "matchedKeywords" atsObj);
     missingKeywords := keywordList (getField "missingKeywords" atsObj);
     advice := match getField "advice" atsObj with
               | VString s => trim s
               | _ => []
               end |}.

(** [!v || typeof v !== "string" || v.trim().length < 50] *)
Definition invalidField (v : value) : bool :=
  negb (truthy v)
  || match v with
     | VString s => length (trim s) <? 50
     | _ => true
     end.

Definition CORS_HEADERS : list (string * string) :=
  [ ("Access-Control-Allow-Origin", "*");
    ("Access-Control-Allow-Methods", "POST, OPTIONS");
    ("Access-Control-Allow-Headers", "Content-Type") ]%string.

(** The handler up to the first request to the API: either a response is
    sent, or the handler goes on with the two texts and the key. *)
Inductive outcome : Type :=
| Respond (status : nat) (headers : list (string * string))
          (error : option string)
| Proceed (resume jobDescription apiKey : jsstring).

Definition handlerStart (method : jsstring) (body : value)
    (ANTHROPIC_API_KEY : option jsstring) : outcome :=
  if jseqb method (lit "OPTIONS") then Respond 204 CORS_HEADERS None
  else if negb (jseqb method (lit "POST")) then
    Respond 405 CORS_HEADERS (Some "Method not allowed. Use POST."%string)
  else
    let fields := match body with
                  | VUndefined | VNull => VObject []
                  | _ => body
                  end in
    let resume := getField "resume" fields in
    let jobDescription := getField "jobDescription" fields in
    if invalidField resume then
      Respond 400 CORS_HEADERS
        (Some "Missing or too-short `resume` field in request body."%string)
    else if invalidField jobDescription then
      Respond 400 CORS_HEADERS
        (Some "Missing or too-short `jobDescription` field in request body."%string)
    else
      match ANTHROPIC_API_KEY with
      | None | Some [] =>
          Respond 500 CORS_HEADERS
            (Some "Server configuration error. API key not set."%string)
      | Some apiKey =>
          Proceed (trimString resume) (trimString jobDescription) apiKey
      end.


End Values.

End Backend.

(* ------------------------------------------------------------------ *)
(** *** Sample replies and requests *)

(** A stand-in for [JSON.parse] that accepts the empty object only. *)
Definition parse_empty_object (text : jsstring) : option (Backend.value nat) :=
  if jseqb text (lit "{}") then Some (Backend.VObject nat []) else None.

Definition reply_with_prose : jsstring := lit " Here you go: {} Good luck! ".


(* ================================================================== *)
(** ** The heuristic candidates as the specification words them *)
(* ================================================================== *)

(** These definitions do not come from the script: they say in terms of
    element kinds (local names) what a candidate of the heuristic tier is,
    to be compared with what the scan keeps. *)

Definition CANDIDATE_KINDS : list string :=
  ["div"; "section"; "article"; "main"]%string.

Definition BLOCK_KINDS : list string :=
  ["div"; "section"; "article"; "main"; "p"; "ul"; "ol"; "table"]%string.

Definition EXCLUDED_KINDS : list string :=
  ["script"; "style"; "noscript"; "iframe";
   "header"; "footer"; "nav"; "aside"; "form"]%string.

Definition hasKind (kinds : list string) (e : element) : bool :=
  existsb (fun k => jseqb (localName e) (lit k)) kinds.

Definition visible (e : element) : bool :=
  negb (jseqb (display e) (lit "none"))
  && negb (jseqb (visibility e) (lit "hidden")).

Definition blockLevelChildren (e : element) : list element :=
  filter (hasKind BLOCK_KINDS) (children e).

(** A div, section, article or main that is visible, not of an excluded
    kind, with at most 12 direct block-level children. *)
Definition isCandidate (e : element) : bool :=
  hasKind CANDIDATE_KINDS e && visible e
  && negb (hasKind EXCLUDED_KINDS e)
  && (length (blockLevelChildren e) <=? 12).

Definition specCandidates (doc : document) : list element :=
  filter isCandidate (elements doc).







(** The number of words of a text: the non-whitespace characters that
    start the text or follow a whitespace character. *)
Fixpoint countWords_from (after_ws : bool) (s : jsstring) : nat :=
  match s with
  | [] => 0
  | c :: tl =>
      if isWhiteSpace c then countWords_from true tl
      else (if after_ws then 1 else 0) + countWords_from false tl
  end.

Definition countWords (text : jsstring) : nat := countWords_from true text.

(* ================================================================== *)
(** ** Lemmas on strings *)
(* ================================================================== *)

Lemma repeat_shift (c : char) n s :
  repeat c n ++ c :: s = c :: repeat c n ++ s.
Proof.
  induction n as [|n IH]; simpl; [reflexivity|]. now rewrite IH.
Qed.

Lemma In_repeat_iff (c y : char) n : In y (repeat c n) <-> y = c /\ 0 < n.
Proof.
  induction n as [|n IH]; simpl; [intuition lia|].
  rewrite IH. intuition (auto; lia).
Qed.

Lemma lead_repeat_app c n s : lead c (repeat c n ++ s) = n + lead c s.
Proof.
  induction n as [|n IH]; simpl; [reflexivity|].
  rewrite N.eqb_refl, IH. reflexivity.
Qed.

Lemma runs_le_lead c k s :
  runs_le c k s = true -> lead c s <= k.
Proof.
  destruct s as [|x tl]; simpl; [lia|].
  intros H. apply andb_prop in H. destruct H as [H _].
  now apply Nat.leb_le in H.
Qed.

Lemma runs_le_tail c k x s :
  runs_le c k (x :: s) = true -> runs_le c k s = true.
Proof.
  cbn [runs_le]. intros H. apply andb_prop in H. tauto.
Qed.

Lemma runs_le_repeat_app c k n s :
  runs_le c k (repeat c n ++ s) = true <->
  n + lead c s <= k /\ runs_le c k s = true.
Proof.
  induction n as [|n IH]; cbn [repeat app].
  - split.
    + intros H. split; [now apply runs_le_lead | exact H].
    + tauto.
  - cbn [runs_le lead]. rewrite N.eqb_refl, lead_repeat_app.
    rewrite andb_true_iff, Nat.leb_le, IH. intuition lia.
Qed.

Lemma runs_le_cons_other c k x s :
  x <> c -> runs_le c k (x :: s) = runs_le c k s.
Proof.
  intros Hx. cbn [runs_le lead].
  destruct (N.eqb_spec x c); [contradiction|]. reflexivity.
Qed.

Lemma runs_le_app_r c k l r :
  runs_le c k (l ++ r) = true -> runs_le c k r = true.
Proof.
  induction l as [|x l IH]; cbn [app]; [tauto|].
  intros H. apply IH. eapply runs_le_tail; eassumption.
Qed.

Lemma lead_app_le c l r : lead c l <= lead c (l ++ r).
Proof.
  induction l as [|x l IH]; simpl; [lia|].
  destruct (N.eqb x c); lia.
Qed.

Lemma runs_le_app_l c k l r :
  runs_le c k (l ++ r) = true -> runs_le c k l = true.
Proof.
  induction l as [|x l IH]; [reflexivity|].
  intros H. change ((x :: l) ++ r) with (x :: (l ++ r)) in H.
  pose proof (runs_le_lead _ _ _ H) as Hl.
  apply runs_le_tail in H. cbn [runs_le].
  apply andb_true_intro. split; [|now apply IH].
  apply Nat.leb_le.
  pose proof (lead_app_le c (x :: l) r) as Hle.
  change ((x :: l) ++ r) with (x :: (l ++ r)) in Hle. lia.
Qed.

Lemma adjb_cons a b x s :
  adjb a b (x :: s) =
  (N.eqb x a && match s with [] => false | y :: _ => N.eqb y b end)
  || adjb a b s.
Proof.
  destruct s as [|y s]; simpl; [now rewrite andb_false_r | reflexivity].
Qed.

Lemma adjb_app_r a b l r :
  adjb a b r = true -> adjb a b (l ++ r) = true.
Proof.
  intros H. induction l as [|x l IH]; [exact H|].
  change ((x :: l) ++ r) with (x :: (l ++ r)).
  rewrite adjb_cons, IH. apply orb_true_r.
Qed.

Lemma adjb_app_l a b l r :
  adjb a b l = true -> adjb a b (l ++ r) = true.
Proof.
  induction l as [|x l IH]; [discriminate|].
  change ((x :: l) ++ r) with (x :: (l ++ r)).
  rewrite !adjb_cons. intros H. apply orb_prop in H.
  destruct H as [H|H].
  - destruct l as [|y l]; [now rewrite andb_false_r in H|].
    cbn [app]. rewrite H. reflexivity.
  - rewrite (IH H). apply orb_true_r.
Qed.

Lemma adjb_repeat_app a b (c : char) n x s :
  x <> c ->
  adjb a b (repeat c n ++ x :: s) = true <->
  (2 <= n /\ a = c /\ b = c) \/ (1 <= n /\ a = c /\ b = x)
  \/ adjb a b (x :: s) = true.
Proof.
  intros Hx. induction n as [|n IH]; cbn [repeat app].
  - split; [tauto|]. intros [H|[H|H]]; [lia|lia|exact H].
  - rewrite adjb_cons, orb_true_iff, IH, andb_true_iff.
    destruct n as [|n]; cbn [repeat app]; rewrite !N.eqb_eq;
      intuition (subst; auto; try lia);
      solve [ left; repeat split; lia
            | right; left; repeat split; lia
            | right; right; left; repeat split; lia ].
Qed.

Lemma adjb_repeat a b (c : char) n :
  adjb a b (repeat c n) = true -> 2 <= n /\ a = c /\ b = c.
Proof.
  induction n as [|n IH]; [discriminate|].
  cbn [repeat]. rewrite adjb_cons, orb_true_iff, andb_true_iff.
  intros [[H1 H2]|H].
  - destruct n as [|n]; [discriminate|]. cbn [repeat] in H2.
    apply N.eqb_eq in H1, H2. subst. repeat split; lia.
  - apply IH in H. intuition lia.
Qed.

(* ------------------------------------------------------------------ *)
(** *** Replacing runs of [k+1] or more [c] by exactly [k] *)

Section RunLemmas.
Variables (c : char) (k : nat).
Hypothesis Hk : 1 <= k.

Let go := replace_runs_from c (S k) (repeat c k).

Lemma flush_run_min n :
  flush_run c (S k) (repeat c k) n = repeat c (Nat.min n k).
Proof.
  unfold flush_run. destruct (Nat.leb_spec (S k) n).
  - now replace (Nat.min n k) with k by lia.
  - now replace (Nat.min n k) with n by lia.
Qed.

Lemma go_nil n : go n [] = repeat c (Nat.min n k).
Proof. apply flush_run_min. Qed.

Lemma go_same n s : go n (c :: s) = go (S n) s.
Proof. unfold go. cbn [replace_runs_from]. now rewrite N.eqb_refl. Qed.

Lemma go_other n x s :
  x <> c -> go n (x :: s) = repeat c (Nat.min n k) ++ x :: go 0 s.
Proof.
  intros Hx. unfold go. cbn [replace_runs_from].
  destruct (N.eqb_spec x c); [contradiction|].
  now rewrite flush_run_min.
Qed.

(** Induction over the scan: the three shapes of a step. *)
Lemma go_ind (P : nat -> jsstring -> Prop) :
  (forall n, P n []) ->
  (forall n s, P (S n) s -> P n (c :: s)) ->
  (forall n x s, x <> c -> P 0 s -> P n (x :: s)) ->
  forall s n, P n s.
Proof.
  intros Hnil Hsame Hother. induction s as [|x s IH]; intros n.
  - apply Hnil.
  - destruct (N.eq_dec x c) as [->|Hx].
    + apply Hsame, IH.
    + apply Hother; [exact Hx | apply IH].
Qed.

Lemma go_head :
  forall s n, hd_error (go n s) = hd_error (repeat c n ++ s).
Proof.
  apply (go_ind (fun n s =>
    hd_error (go n s) = hd_error (repeat c n ++ s))).
  - intros n. rewrite go_nil, app_nil_r.
    destruct n as [|n]; [reflexivity|].
    destruct k as [|k']; [lia|]. reflexivity.
  - intros n s IH. rewrite go_same, IH, repeat_shift. reflexivity.
  - intros n x s Hx _. rewrite (go_other n x s Hx).
    destruct n as [|n]; [reflexivity|].
    destruct k as [|k']; [lia|]. reflexivity.
Qed.

Lemma go_runs_le : forall s n, runs_le c k (go n s) = true.
Proof.
  apply (go_ind (fun n s => runs_le c k (go n s) = true)).
  - intros n. rewrite go_nil.
    rewrite <- (app_nil_r (repeat c _)). apply runs_le_repeat_app.
    simpl. split; [lia | reflexivity].
  - intros n s' IH. now rewrite go_same.
  - intros n x s' Hx IH. rewrite (go_other n x s' Hx).
    apply runs_le_repeat_app. split.
    + simpl. destruct (N.eqb_spec x c); [contradiction | lia].
    + now rewrite runs_le_cons_other.
Qed.

Lemma go_id :
  forall s n, runs_le c k (repeat c n ++ s) = true -> go n s = repeat c n ++ s.
Proof.
  apply (go_ind (fun n s =>
    runs_le c k (repeat c n ++ s) = true -> go n s = repeat c n ++ s)).
  - intros n H. rewrite go_nil, app_nil_r.
    apply runs_le_repeat_app in H. simpl in H.
    now replace (Nat.min n k) with n by lia.
  - intros n s' IH H. rewrite go_same, repeat_shift.
    apply IH. cbn [repeat app]. now rewrite <- repeat_shift.
  - intros n x s' Hx IH H. rewrite (go_other n x s' Hx).
    apply runs_le_repeat_app in H. destruct H as [Hn H].
    rewrite runs_le_cons_other in H by exact Hx.
    rewrite (IH H). now replace (Nat.min n k) with n by lia.
Qed.

Lemma go_In y :
  forall s n, In y (go n s) -> In y (repeat c n ++ s).
Proof.
  apply (go_ind (fun n s => In y (go n s) -> In y (repeat c n ++ s))).
  - intros n. rewrite go_nil, app_nil_r, !In_repeat_iff. intuition lia.
  - intros n s' IH H. rewrite go_same in H. rewrite repeat_shift.
    apply IH in H. exact H.
  - intros n x s' Hx IH H. rewrite (go_other n x s' Hx) in H.
    apply in_app_or in H. apply in_or_app. destruct H as [H|[H|H]].
    + left. rewrite In_repeat_iff in *. intuition lia.
    + right. left. exact H.
    + right. right. apply IH in H. exact H.
Qed.

Lemma go_In_other y :
  y <> c -> forall s n, In y s -> In y (go n s).
Proof.
  intros Hy.
  apply (go_ind (fun n s => In y s -> In y (go n s))).
  - intros n [].
  - intros n s' IH [H|H]; [congruence|]. rewrite go_same. auto.
  - intros n x s' Hx IH H. rewrite (go_other n x s' Hx).
    apply in_or_app. right. destruct H as [H|H]; [left|right]; auto.
Qed.

Lemma go_adjb a b :
  forall s n, adjb a b (go n s) = true -> adjb a b (repeat c n ++ s) = true.
Proof.
  apply (go_ind (fun n s =>
    adjb a b (go n s) = true -> adjb a b (repeat c n ++ s) = true)).
  - intros n. rewrite go_nil, app_nil_r. intros H.
    apply adjb_repeat in H. destruct H as (H2 & -> & ->).
    destruct n as [|[|n]]; try lia.
    simpl. now rewrite !N.eqb_refl.
  - intros n s' IH H. rewrite go_same in H. rewrite repeat_shift.
    now apply IH.
  - intros n x s' Hx IH H. rewrite (go_other n x s' Hx) in H.
    apply (adjb_repeat_app a b c _ x _ Hx) in H.
    apply (adjb_repeat_app a b c _ x _ Hx).
    destruct H as [(H2 & -> & ->)|[(H1 & -> & ->)|H]].
    + left. repeat split; lia.
    + right. left. repeat split; lia.
    + right. right. rewrite adjb_cons in H |- *.
      apply orb_prop in H. apply orb_true_iff.
      destruct H as [H|H].
      * left. pose proof (go_head s' 0) as Hh. cbn [repeat app] in Hh.
        destruct (go 0 s') as [|y r]; [now rewrite andb_false_r in H|].
        destruct s' as [|z s'']; [discriminate|].
        simpl in Hh. injection Hh as ->. exact H.
      * right. apply IH in H. exact H.
Qed.
End RunLemmas.

Lemma runs_le_one_adjb c s :
  runs_le c 1 s = true <-> adjb c c s = false.
Proof.
  induction s as [|x s IH]; [simpl; tauto|].
  rewrite adjb_cons. cbn [runs_le]. rewrite andb_true_iff, orb_false_iff, IH.
  rewrite Nat.leb_le. destruct s as [|y s]; simpl.
  - rewrite andb_false_r. destruct (N.eqb x c); intuition lia.
  - destruct (N.eqb x c), (N.eqb y c); simpl; intuition (try lia; congruence).
Qed.

Lemma prefixb_repeat c n s : prefixb (repeat c n) s = (n <=? lead c s).
Proof.
  revert s. induction n as [|n IH]; intros s; [reflexivity|].
  destruct s as [|x s]; [reflexivity|].
  cbn [repeat prefixb lead]. rewrite IH, N.eqb_sym.
  destruct (N.eqb x c); reflexivity.
Qed.

Lemma runs_le_occurs c k s :
  runs_le c k s = negb (occurs (repeat c (S k)) s).
Proof.
  induction s as [|x s IH]; [reflexivity|].
  cbn [runs_le occurs]. rewrite negb_orb, <- IH, prefixb_repeat.
  f_equal. rewrite Nat.leb_antisym. reflexivity.
Qed.

Lemma runs_le_no_occurrence c k s :
  runs_le c k s = true -> occurs (repeat c (S k)) s = false.
Proof.
  rewrite runs_le_occurs. now destruct (occurs (repeat c (S k)) s).
Qed.

Lemma has_char_In c s : has_char c s = true <-> In c s.
Proof.
  unfold has_char. rewrite existsb_exists. split.
  - intros (y & Hy & E). apply N.eqb_eq in E. now subst.
  - intros H. exists c. split; [exact H | apply N.eqb_refl].
Qed.

Lemma has_char_false c s : has_char c s = false <-> ~ In c s.
Proof.
  rewrite <- has_char_In. destruct (has_char c s); intuition congruence.
Qed.

Lemma occurs_tail p x s : occurs p s = true -> occurs p (x :: s) = true.
Proof. intros H. cbn [occurs]. rewrite H. apply orb_true_r. Qed.

(* ------------------------------------------------------------------ *)
(** *** CRLF replacement *)

Lemma replace_crlf_ind (P : list N -> Prop) :
  P [] ->
  (forall c, P [c]) ->
  (forall rest, P rest -> P (CR :: LF :: rest)) ->
  (forall c d rest, ~ (c = CR /\ d = LF) -> P (d :: rest) ->
                    P (c :: d :: rest)) ->
  forall s : list N, P s.
Proof.
  intros Hnil Hone Hcrlf Hother s.
  assert (H : P s /\ forall x, P (x :: s)); [|tauto].
  induction s as [|y s [IH1 IH2]].
  - split; [exact Hnil | exact Hone].
  - split; [apply IH2|]. intros x.
    destruct (N.eq_dec x CR) as [->|Hx].
    + destruct (N.eq_dec y LF) as [->|Hy].
      * apply Hcrlf, IH1.
      * apply Hother; [tauto | apply IH2].
    + apply Hother; [tauto | apply IH2].
Qed.

Lemma replace_crlf_crlf rest :
  replace_crlf (CR :: LF :: rest) = LF :: replace_crlf rest.
Proof. reflexivity. Qed.

Lemma replace_crlf_other c d rest :
  ~ (c = CR /\ d = LF) ->
  replace_crlf (c :: d :: rest) = c :: replace_crlf (d :: rest).
Proof.
  intros H. cbn [replace_crlf].
  destruct (N.eqb_spec c CR), (N.eqb_spec d LF); simpl; tauto.
Qed.

Lemma replace_crlf_id s : adjb CR LF s = false -> replace_crlf s = s.
Proof.
  induction s as [| c | rest IH | c d rest Hcd IH] using replace_crlf_ind;
    try reflexivity.
  - simpl. discriminate.
  - rewrite adjb_cons, orb_false_iff. intros [_ H].
    rewrite (replace_crlf_other _ _ _ Hcd), (IH H). reflexivity.
Qed.

Lemma replace_crlf_In y s : In y (replace_crlf s) -> In y s.
Proof.
  induction s as [| c | rest IH | c d rest Hcd IH] using replace_crlf_ind;
    try tauto.
  - rewrite replace_crlf_crlf. intros [H|H]; simpl; auto.
  - rewrite (replace_crlf_other _ _ _ Hcd). intros [H|H]; [left|right]; auto.
Qed.

Lemma replace_crlf_In_rev y s :
  In y s -> y = CR \/ In y (replace_crlf s).
Proof.
  induction s as [| c | rest IH | c d rest Hcd IH] using replace_crlf_ind.
  - intros [].
  - simpl. tauto.
  - rewrite replace_crlf_crlf. intros [H|[H|H]]; simpl; auto.
    destruct (IH H); auto.
  - rewrite (replace_crlf_other _ _ _ Hcd). intros [H|H]; simpl; auto.
    destruct (IH H); auto.
Qed.

Lemma replace_crlf_no_cr s :
  cr_only_in_crlf s = true -> ~ In CR (replace_crlf s).
Proof.
  induction s as [| c | rest IH | c d rest Hcd IH] using replace_crlf_ind.
  - intros _ [].
  - simpl. destruct (N.eqb_spec c CR); [discriminate|].
    intros _ [H|[]]. congruence.
  - cbn [cr_only_in_crlf]. rewrite !andb_true_iff. intros (_ & _ & H).
    rewrite replace_crlf_crlf. intros [E|E]; [discriminate|].
    now apply IH.
  - intros H. change (cr_only_in_crlf (c :: d :: rest)) with
      ((if N.eqb c CR then N.eqb d LF else true)
       && cr_only_in_crlf (d :: rest)) in H.
    apply andb_prop in H. destruct H as [Hc H].
    rewrite (replace_crlf_other _ _ _ Hcd). intros [E|E].
    + subst c. rewrite N.eqb_refl in Hc. apply N.eqb_eq in Hc. tauto.
    + now apply IH.
Qed.

Lemma replace_crlf_head s :
  hd_error (replace_crlf s) = Some LF ->
  hd_error s = Some LF \/ prefixb [CR; LF] s = true.
Proof.
  destruct s as [|c [|d rest]]; cbn [replace_crlf hd_error];
    try discriminate; auto.
  destruct (N.eqb_spec c CR), (N.eqb_spec d LF); subst;
    cbn [andb hd_error]; auto.
Qed.

Lemma replace_crlf_adjb s :
  adjb CR LF (replace_crlf s) = true -> occurs [CR; CR; LF] s = true.
Proof.
  induction s as [| c | rest IH | c d rest Hcd IH] using replace_crlf_ind;
    try discriminate.
  - rewrite replace_crlf_crlf, adjb_cons. simpl (N.eqb LF CR && _).
    intros H. do 2 apply occurs_tail. now apply IH.
  - rewrite (replace_crlf_other _ _ _ Hcd), adjb_cons, orb_true_iff.
    intros [H|H]; [|apply occurs_tail; now apply IH].
    apply andb_prop in H. destruct H as [Hc Hh].
    apply N.eqb_eq in Hc. subst c.
    assert (Hd : hd_error (replace_crlf (d :: rest)) = Some LF).
    { destruct (replace_crlf (d :: rest)); [discriminate|].
      apply N.eqb_eq in Hh. now subst. }
    apply replace_crlf_head in Hd. destruct Hd as [Hd|Hd].
    + injection Hd as ->. tauto.
    + cbn [occurs]. change (prefixb [CR; CR; LF] (CR :: d :: rest))
        with (N.eqb CR CR && prefixb [CR; LF] (d :: rest)).
      now rewrite Hd.
Qed.

(* ------------------------------------------------------------------ *)
(** *** Tab replacement *)

Lemma replace_tabs_no_tab s : ~ In TAB (replace_tabs s).
Proof.
  unfold replace_tabs. rewrite in_map_iff. intros (x & E & _).
  destruct (N.eqb_spec x TAB); [discriminate | congruence].
Qed.

Lemma replace_tabs_id s : ~ In TAB s -> replace_tabs s = s.
Proof.
  induction s as [|x s IH]; [reflexivity|].
  intros H. simpl. rewrite IH by (intros F; apply H; now right).
  destruct (N.eqb_spec x TAB); [|reflexivity].
  exfalso. apply H. now left.
Qed.

Lemma replace_tabs_In y s :
  In y (replace_tabs s) -> y = SP \/ In y s.
Proof.
  unfold replace_tabs. rewrite in_map_iff. intros (x & E & Hx).
  destruct (N.eqb_spec x TAB); subst; auto.
Qed.

Lemma replace_tabs_In_rev y s :
  In y s -> y = TAB \/ In y (replace_tabs s).
Proof.
  intros H. destruct (N.eq_dec y TAB) as [->|Hy]; [now left|right].
  unfold replace_tabs. apply in_map_iff. exists y. split; [|exact H].
  destruct (N.eqb_spec y TAB); [contradiction | reflexivity].
Qed.

Lemma replace_tabs_adjb s :
  adjb CR LF (replace_tabs s) = adjb CR LF s.
Proof.
  induction s as [|x s IH]; [reflexivity|].
  change (replace_tabs (x :: s))
    with ((if N.eqb x TAB then SP else x) :: replace_tabs s).
  rewrite !adjb_cons, IH. f_equal.
  destruct s as [|y s]; [now rewrite !andb_false_r|].
  change (replace_tabs (y :: s))
    with ((if N.eqb y TAB then SP else y) :: replace_tabs s).
  destruct (N.eqb_spec x TAB), (N.eqb_spec y TAB); subst; reflexivity.
Qed.

(* ------------------------------------------------------------------ *)
(** *** Trimming *)

Lemma trim_start_suffix s :
  exists l, s = l ++ trim_start s /\ forallb isWhiteSpace l = true.
Proof.
  induction s as [|c s (l & E & Hl)]; [now exists []|].
  simpl. destruct (isWhiteSpace c) eqn:Hc.
  - exists (c :: l). simpl. rewrite Hc, Hl. now rewrite <- E.
  - now exists [].
Qed.

Lemma trim_end_prefix s :
  exists r, s = trim_end s ++ r /\ forallb isWhiteSpace r = true.
Proof.
  induction s as [|c s (r & E & Hr)]; [now exists []|].
  cbn [trim_end]. destruct (trim_end s) as [|y t] eqn:Ht.
  - destruct (isWhiteSpace c) eqn:Hc.
    + exists (c :: s). split; [reflexivity|].
      simpl in E. subst r. simpl. now rewrite Hc.
    + exists s. split; [reflexivity|]. simpl in E. now subst r.
  - exists r. split; [|exact Hr]. change (c :: s = c :: ((y :: t) ++ r)).
    now rewrite <- E.
Qed.

Lemma trim_start_not_ws s : starts_ws (trim_start s) = false.
Proof.
  induction s as [|c s IH]; [reflexivity|].
  simpl. destruct (isWhiteSpace c) eqn:Hc; [exact IH | simpl; exact Hc].
Qed.

Lemma trim_end_not_ws s : ends_ws (trim_end s) = false.
Proof.
  induction s as [|c s IH]; [reflexivity|].
  cbn [trim_end]. destruct (trim_end s) as [|y t] eqn:Ht.
  - destruct (isWhiteSpace c) eqn:Hc; simpl; [reflexivity | exact Hc].
  - exact IH.
Qed.

Lemma trim_end_starts s :
  starts_ws s = false -> starts_ws (trim_end s) = false.
Proof.
  destruct s as [|c s]; [reflexivity|].
  cbn [trim_end starts_ws]. intros Hc.
  destruct (trim_end s); [rewrite Hc|]; exact Hc.
Qed.

Lemma trim_start_id s : starts_ws s = false -> trim_start s = s.
Proof.
  destruct s as [|c s]; [reflexivity|]. simpl. now intros ->.
Qed.

Lemma trim_end_id s : ends_ws s = false -> trim_end s = s.
Proof.
  induction s as [|c s IH]; [reflexivity|].
  cbn [trim_end ends_ws]. destruct s as [|d s].
  - simpl. now intros ->.
  - intros H. rewrite (IH H). reflexivity.
Qed.

Lemma trim_infix s :
  exists l r, s = l ++ trim s ++ r
              /\ forallb isWhiteSpace l = true
              /\ forallb isWhiteSpace r = true.
Proof.
  destruct (trim_start_suffix s) as (l & El & Hl).
  destruct (trim_end_prefix (trim_start s)) as (r & Er & Hr).
  exists l, r. unfold trim. now rewrite <- Er.
Qed.

Lemma trim_trimmed s : starts_ws (trim s) = false /\ ends_ws (trim s) = false.
Proof.
  unfold trim. split.
  - apply trim_end_starts, trim_start_not_ws.
  - apply trim_end_not_ws.
Qed.

Lemma trim_id s : starts_ws s = false -> ends_ws s = false -> trim s = s.
Proof.
  intros H1 H2. unfold trim. rewrite (trim_start_id _ H1).
  now apply trim_end_id.
Qed.

Lemma trim_In y s : In y (trim s) -> In y s.
Proof.
  destruct (trim_infix s) as (l & r & E & _). intros H.
  rewrite E. apply in_or_app. right. apply in_or_app. now left.
Qed.

Lemma trim_runs_le c k s : runs_le c k s = true -> runs_le c k (trim s) = true.
Proof.
  destruct (trim_infix s) as (l & r & E & _). intros H.
  rewrite E in H. apply runs_le_app_r in H. now apply runs_le_app_l in H.
Qed.

Lemma trim_adjb a b s : adjb a b s = false -> adjb a b (trim s) = false.
Proof.
  destruct (trim_infix s) as (l & r & E & _). intros H.
  destruct (adjb a b (trim s)) eqn:Ht; [|reflexivity].
  rewrite E in H. rewrite adjb_app_r in H; [discriminate|].
  now apply adjb_app_l.
Qed.

Lemma trim_nil_iff s : trim s = [] <-> forallb isWhiteSpace s = true.
Proof.
  split.
  - destruct (trim_infix s) as (l & r & E & Hl & Hr). intros Ht.
    rewrite Ht in E. rewrite E, forallb_app. simpl. now rewrite Hl, Hr.
  - unfold trim. induction s as [|c s IH]; [reflexivity|].
    simpl. destruct (isWhiteSpace c); [exact IH | discriminate].
Qed.

(* ------------------------------------------------------------------ *)
(** *** The composed normalizer *)

Lemma collapseWhitespace_steps x : collapseWhitespace x = trim (step4 x).
Proof. reflexivity. Qed.

Lemma replace_runs_SP s :
  replace_runs SP 2 [SP] s = replace_runs_from SP (S 1) (repeat SP 1) 0 s.
Proof. reflexivity. Qed.

Lemma replace_runs_LF s :
  replace_runs LF 3 [LF; LF] s = replace_runs_from LF (S 2) (repeat LF 2) 0 s.
Proof. reflexivity. Qed.

Lemma collapse_no_tab x : ~ In TAB (collapseWhitespace x).
Proof.
  rewrite collapseWhitespace_steps. intros H. apply trim_In in H.
  unfold step4 in H. rewrite replace_runs_LF in H.
  apply go_In in H; [|lia]. unfold step3 in H. rewrite replace_runs_SP in H.
  apply go_In in H; [|lia]. now apply replace_tabs_no_tab in H.
Qed.

Lemma collapse_no_spaces x : runs_le SP 1 (collapseWhitespace x) = true.
Proof.
  rewrite collapseWhitespace_steps. apply runs_le_one_adjb, trim_adjb.
  destruct (adjb SP SP (step4 x)) eqn:H; [|reflexivity].
  unfold step4 in H. rewrite replace_runs_LF in H.
  apply go_adjb in H; [|lia]. cbn [repeat app] in H.
  unfold step3 in H. rewrite replace_runs_SP in H.
  pose proof (go_runs_le SP 1 (le_n 1) (step2 x) 0) as Hr.
  apply runs_le_one_adjb in Hr. congruence.
Qed.

Lemma collapse_no_newlines x : runs_le LF 2 (collapseWhitespace x) = true.
Proof.
  rewrite collapseWhitespace_steps. apply trim_runs_le.
  unfold step4. rewrite replace_runs_LF. apply go_runs_le. lia.
Qed.

Lemma collapse_trimmed x :
  starts_ws (collapseWhitespace x) = false
  /\ ends_ws (collapseWhitespace x) = false.
Proof. rewrite collapseWhitespace_steps. apply trim_trimmed. Qed.

Lemma collapse_In_cr x : In CR (collapseWhitespace x) -> In CR (step1 x).
Proof.
  rewrite collapseWhitespace_steps. intros H. apply trim_In in H.
  unfold step4 in H. rewrite replace_runs_LF in H. apply go_In in H; [|lia].
  unfold step3 in H. rewrite replace_runs_SP in H. apply go_In in H; [|lia].
  cbn [repeat app] in H. unfold step2 in H.
  apply replace_tabs_In in H. destruct H as [H|H]; [discriminate | exact H].
Qed.

Lemma collapse_adjb_crlf x :
  adjb CR LF (collapseWhitespace x) = true -> adjb CR LF (step1 x) = true.
Proof.
  rewrite collapseWhitespace_steps. intros H.
  destruct (adjb CR LF (step4 x)) eqn:H4;
    [|now rewrite (trim_adjb _ _ _ H4) in H].
  unfold step4 in H4. rewrite replace_runs_LF in H4.
  apply go_adjb in H4; [|lia]. cbn [repeat app] in H4.
  unfold step3 in H4. rewrite replace_runs_SP in H4.
  apply go_adjb in H4; [|lia]. cbn [repeat app] in H4.
  unfold step2 in H4. now rewrite replace_tabs_adjb in H4.
Qed.

(** A string that already has the four properties and no CRLF pair is a
    fixed point of the normalizer. *)
Lemma collapse_fixed y :
  adjb CR LF y = false -> ~ In TAB y ->
  runs_le SP 1 y = true -> runs_le LF 2 y = true ->
  starts_ws y = false -> ends_ws y = false ->
  collapseWhitespace y = y.
Proof.
  intros H1 H2 H3 H4 H5 H6. unfold collapseWhitespace.
  rewrite (replace_crlf_id _ H1), (replace_tabs_id _ H2).
  rewrite replace_runs_SP, go_id by (first [lia | exact H3]).
  cbn [repeat app].
  rewrite replace_runs_LF, go_id by (first [lia | exact H4]).
  cbn [repeat app]. now apply trim_id.
Qed.

Lemma collapse_nil_iff x :
  collapseWhitespace x = [] <-> forallb isWhiteSpace x = true.
Proof.
  rewrite collapseWhitespace_steps, trim_nil_iff, !forallb_forall.
  split; intros H y Hy.
  - destruct (replace_crlf_In_rev _ _ Hy) as [->|H1]; [reflexivity|].
    destruct (replace_tabs_In_rev _ _ H1) as [->|H2]; [reflexivity|].
    destruct (N.eq_dec y SP) as [->|Hsp]; [reflexivity|].
    destruct (N.eq_dec y LF) as [->|Hlf]; [reflexivity|].
    apply H. unfold step4. rewrite replace_runs_LF.
    apply go_In_other; [lia | exact Hlf|]. unfold step3.
    rewrite replace_runs_SP. apply go_In_other; [lia | exact Hsp|]. exact H2.
  - unfold step4 in Hy. rewrite replace_runs_LF in Hy.
    apply go_In in Hy; [|lia]. unfold step3 in Hy.
    rewrite replace_runs_SP in Hy. apply go_In in Hy; [|lia].
    cbn [repeat app] in Hy. apply replace_tabs_In in Hy.
    destruct Hy as [->|Hy]; [reflexivity|].
    apply H. now apply replace_crlf_In.
Qed.

(* ================================================================== *)
(** ** The whitespace normalizer: claims *)
(* ================================================================== *)

(** The worked example of the specification:
    ["Job Title\n\n\n\nWe need a builder.   Apply now."] normalizes to
    ["Job Title\n\nWe need a builder. Apply now."]. *)
Example collapseWhitespace_example :
  collapseWhitespace text_example
  = lit "Job Title" ++ [LF; LF] ++ lit "We need a builder. Apply now.".
Proof. vm_compute. reflexivity. Qed.

(** C5, as stated, fails: on ["a\r\r\nb"] the first pass yields ["a\r\nb"],
    and a second pass turns it into ["a\nb"]. *)
Lemma collapseWhitespace_not_idempotent :
  collapseWhitespace (collapseWhitespace text_crcrlf)
  <> collapseWhitespace text_crcrlf.
Proof. vm_compute. discriminate. Qed.

(** C5 (amended): on every input that contains no carriage return directly
    followed by a CRLF pair, normalizing twice equals normalizing once. *)
Theorem collapseWhitespace_idempotent (x : jsstring) :
  occurs [CR; CR; LF] x = false ->
  collapseWhitespace (collapseWhitespace x) = collapseWhitespace x.
Proof.
  intros Hx. apply collapse_fixed.
  - destruct (adjb CR LF (collapseWhitespace x)) eqn:H; [|reflexivity].
    apply collapse_adjb_crlf, replace_crlf_adjb in H. congruence.
  - apply collapse_no_tab.
  - apply collapse_no_spaces.
  - apply collapse_no_newlines.
  - apply collapse_trimmed.
  - apply collapse_trimmed.
Qed.

Lemma collapseWhitespace_idempotent_witness :
  occurs [CR; CR; LF] text_windows = false
  /\ collapseWhitespace (collapseWhitespace text_windows)
     = collapseWhitespace text_windows.
Proof.
  split; [reflexivity|].
  apply (collapseWhitespace_idempotent text_windows). reflexivity.
Defined.

(** C7: the output of the normalizer has no tab, no two consecutive
    spaces, no three consecutive newlines, and neither starts nor ends with
    whitespace. *)
Theorem collapseWhitespace_shape (x : jsstring) :
  has_char TAB (collapseWhitespace x) = false
  /\ occurs [SP; SP] (collapseWhitespace x) = false
  /\ occurs [LF; LF; LF] (collapseWhitespace x) = false
  /\ starts_ws (collapseWhitespace x) = false
  /\ ends_ws (collapseWhitespace x) = false.
Proof.
  repeat split.
  - apply has_char_false, collapse_no_tab.
  - apply (runs_le_no_occurrence SP 1), collapse_no_spaces.
  - apply (runs_le_no_occurrence LF 2), collapse_no_newlines.
  - apply collapse_trimmed.
  - apply collapse_trimmed.
Qed.

(** C8, as stated, fails: a lone carriage return inside the text is kept. *)
Lemma collapseWhitespace_keeps_lone_cr :
  has_char CR (collapseWhitespace text_lone_cr) = true.
Proof. reflexivity. Qed.

(** C8 (amended): when every carriage return of the input is immediately
    followed by a newline, the output contains no carriage return. *)
Theorem collapseWhitespace_unifies_crlf (x : jsstring) :
  cr_only_in_crlf x = true ->
  has_char CR (collapseWhitespace x) = false.
Proof.
  intros Hx. apply has_char_false. intros H.
  apply collapse_In_cr in H. now apply (replace_crlf_no_cr x).
Qed.

Lemma collapseWhitespace_unifies_crlf_witness :
  cr_only_in_crlf text_windows = true
  /\ has_char CR (collapseWhitespace text_windows) = false.
Proof.
  split; [reflexivity|].
  apply (collapseWhitespace_unifies_crlf text_windows). reflexivity.
Defined.

(* ================================================================== *)
(** ** Lemmas on the extraction tiers *)
(* ================================================================== *)

(** *** Tier 1 *)

Lemma selectorTier_skip doc sel rest :
  qualifies doc sel = false ->
  selectorTier (sel :: rest) doc = selectorTier rest doc.
Proof.
  unfold qualifies. cbn [selectorTier].
  destruct (querySelector sel doc) as [e|]; [|reflexivity].
  now intros ->.
Qed.

Lemma selectorTier_take doc sel rest e :
  querySelector sel doc = Some e ->
  MIN_LENGTH <= length (elementText e) ->
  selectorTier (sel :: rest) doc = Some (elementText e).
Proof.
  intros Hq Hlen. cbn [selectorTier]. rewrite Hq.
  apply Nat.leb_le in Hlen. now rewrite Hlen.
Qed.

Lemma selectorTier_app doc pre post :
  existsb (qualifies doc) pre = false ->
  selectorTier (pre ++ post) doc = selectorTier post doc.
Proof.
  induction pre as [|s pre IH]; [reflexivity|].
  cbn [existsb app]. rewrite orb_false_iff. intros [Hs Hpre].
  rewrite (selectorTier_skip _ _ _ Hs). now apply IH.
Qed.

Lemma selectorTier_none_iff doc sels :
  selectorTier sels doc = None <-> existsb (qualifies doc) sels = false.
Proof.
  induction sels as [|s sels IH]; [simpl; tauto|].
  cbn [existsb]. rewrite orb_false_iff, <- IH.
  unfold qualifies. cbn [selectorTier].
  destruct (querySelector s doc) as [e|]; [|tauto].
  destruct (MIN_LENGTH <=? length (elementText e)); intuition discriminate.
Qed.

Lemma selectorTier_some doc sels t :
  selectorTier sels doc = Some t ->
  exists sel e, In sel sels /\ querySelector sel doc = Some e
                /\ t = elementText e /\ MIN_LENGTH <= length t.
Proof.
  induction sels as [|s sels IH]; [discriminate|].
  cbn [selectorTier]. destruct (querySelector s doc) as [e|] eqn:Hq.
  - destruct (Nat.leb_spec MIN_LENGTH (length (elementText e))) as [Hl|Hl].
    + intros [= <-]. exists s, e. simpl. auto.
    + intros H. destruct (IH H) as (s' & e' & Hin & H').
      exists s', e'. simpl. auto.
  - intros H. destruct (IH H) as (s' & e' & Hin & H').
    exists s', e'. simpl. auto.
Qed.

Lemma selectorTier_hit doc sels pre sel post e :
  sels = pre ++ sel :: post ->
  existsb (qualifies doc) pre = false ->
  querySelector sel doc = Some e ->
  MIN_LENGTH <= length (elementText e) ->
  selectorTier sels doc = Some (elementText e).
Proof.
  intros -> Hpre Hq Hlen. rewrite (selectorTier_app _ _ _ Hpre).
  now apply selectorTier_take.
Qed.

Lemma querySelector_first sel doc :
  querySelector sel doc = hd_error (querySelectorAll [sel] doc).
Proof.
  unfold querySelector, querySelectorAll.
  induction (elements doc) as [|e l IH]; [reflexivity|].
  cbn [find filter existsb]. rewrite orb_false_r.
  destruct (matches sel e); [reflexivity | exact IH].
Qed.

(** *** Tier 2 *)

Lemma scanStep_pick st e :
  scanStep st e = if eligible e then pick st e else st.
Proof.
  unfold scanStep, eligible, pick.
  destruct (hidden e); [reflexivity|].
  destruct (has SKIP_TAGS (tagName e)); [reflexivity|].
  rewrite Nat.ltb_antisym.
  destruct (directBlockChildren e <=? 12); reflexivity.
Qed.

Lemma scan_filter l st :
  fold_left scanStep l st = fold_left pick (filter eligible l) st.
Proof.
  revert st. induction l as [|e l IH]; intros st; [reflexivity|].
  cbn [fold_left filter]. rewrite scanStep_pick, IH.
  destruct (eligible e); reflexivity.
Qed.

Lemma scan_heuristicCandidates doc :
  scan doc = fold_left pick (heuristicCandidates doc) (None, 0).
Proof. apply scan_filter. Qed.




Lemma pick_bound l : forall st B,
  snd st < B ->
  (forall e, In e l -> length (elementText e) < B) ->
  snd (fold_left pick l st) < B.
Proof.
  induction l as [|e l IH]; intros st B Hst H; [exact Hst|].
  cbn [fold_left]. apply IH.
  - unfold pick. destruct (snd st <? length (elementText e)); [|exact Hst].
    cbn [snd]. apply H. now left.
  - intros e' He'. apply H. now right.
Qed.

Lemma pick_upper l : forall st,
  snd st <= snd (fold_left pick l st)
  /\ forall e, In e l -> length (elementText e) <= snd (fold_left pick l st).
Proof.
  induction l as [|e l IH]; intros st;
    [cbn [fold_left]; split; [lia | intros ? []]|].
  cbn [fold_left]. destruct (IH (pick st e)) as [H1 H2].
  assert (Hp : snd st <= snd (pick st e)
               /\ length (elementText e) <= snd (pick st e)).
  { unfold pick.
    destruct (Nat.ltb_spec (snd st) (length (elementText e)));
      cbn [snd]; lia. }
  split; [lia|]. intros e' [<-|He']; [lia | now apply H2].
Qed.

Lemma pick_consistent l : forall st,
  (forall e, fst st = Some e -> snd st = length (elementText e)) ->
  (fst st = None -> snd st = 0) ->
  (forall e, fst (fold_left pick l st) = Some e ->
             snd (fold_left pick l st) = length (elementText e))
  /\ (fst (fold_left pick l st) = None -> snd (fold_left pick l st) = 0).
Proof.
  induction l as [|x l IH]; intros st H1 H2; [now split|].
  cbn [fold_left]. apply IH; unfold pick;
    destruct (snd st <? length (elementText x)); cbn [fst snd];
    auto; congruence.
Qed.

Lemma scan_consistent doc :
  (forall e, fst (scan doc) = Some e ->
             snd (scan doc) = length (elementText e))
  /\ (fst (scan doc) = None -> snd (scan doc) = 0).
Proof.
  rewrite scan_heuristicCandidates.
  apply pick_consistent; cbn [fst snd]; [discriminate | reflexivity].
Qed.

Lemma Return_inj a b : Return a = Return b -> a = b.
Proof. intros H. now injection H. Qed.

Lemma js_or_nil_r a : js_or a [] = a.
Proof. now destruct a. Qed.

Lemma elementText_best e :
  collapseWhitespace (js_or (innerText e) (textContent e)) = elementText e.
Proof. unfold elementText. now rewrite js_or_nil_r. Qed.

Lemma scan_low_iff doc :
  forallb (fun e => length (elementText e) <? MIN_LENGTH)
          (heuristicCandidates doc) = true
  <-> (fst (scan doc) = None \/ snd (scan doc) < MIN_LENGTH).
Proof.
  rewrite scan_heuristicCandidates, forallb_forall. split.
  - intros H. right. apply pick_bound; [cbv; lia|].
    intros e He. now apply Nat.ltb_lt, H.
  - intros H e He. apply Nat.ltb_lt.
    destruct (pick_upper (heuristicCandidates doc) (None, 0)) as [_ Hup].
    specialize (Hup e He). destruct H as [H|H]; [|lia].
    destruct (scan_consistent doc) as [_ Hz].
    rewrite scan_heuristicCandidates in Hz. rewrite (Hz H) in Hup.
    unfold MIN_LENGTH. lia.
Qed.

Lemma heuristicTier_low doc :
  forallb (fun e => length (elementText e) <? MIN_LENGTH)
          (heuristicCandidates doc) = true ->
  heuristicTier doc = lastResort doc.
Proof.
  intros H. apply scan_low_iff in H. unfold heuristicTier.
  destruct (scan doc) as [[best|] n]; [|reflexivity].
  cbn [fst snd] in H. destruct H as [H|H]; [discriminate|].
  apply Nat.leb_gt in H. now rewrite H.
Qed.

Lemma heuristicTier_cases doc :
  (exists best, heuristicTier doc = Return (elementText best)
                /\ MIN_LENGTH <= length (elementText best))
  \/ (heuristicTier doc = lastResort doc
      /\ forallb (fun e => length (elementText e) <? MIN_LENGTH)
                 (heuristicCandidates doc) = true).
Proof.
  destruct (scan_consistent doc) as [Hc _].
  pose proof (scan_low_iff doc) as Hlow. unfold heuristicTier.
  destruct (scan doc) as [[best|] n]; cbn [fst snd] in *.
  - destruct (Nat.leb_spec MIN_LENGTH n) as [Hn|Hn].
    + left. exists best. rewrite elementText_best.
      split; [reflexivity|]. now rewrite <- (Hc best eq_refl).
    + right. split; [reflexivity|]. apply Hlow. now right.
  - right. split; [reflexivity|]. apply Hlow. now left.
Qed.

(** *** Tier 3 *)

Lemma firstn_prefix (n : nat) (s : jsstring) :
  exists r, s = firstn n s ++ r.
Proof. exists (skipn n s). symmetry. apply firstn_skipn. Qed.

Lemma firstn_starts n s : starts_ws s = false -> starts_ws (firstn n s) = false.
Proof. destruct n, s; auto. Qed.

Lemma firstn_not_In y n (s : jsstring) : ~ In y s -> ~ In y (firstn n s).
Proof.
  destruct (firstn_prefix n s) as (r & E). intros H F. apply H.
  rewrite E. apply in_or_app. now left.
Qed.

Lemma firstn_runs_le c k n s :
  runs_le c k s = true -> runs_le c k (firstn n s) = true.
Proof.
  destruct (firstn_prefix n s) as (r & E). intros H.
  rewrite E in H. now apply runs_le_app_l in H.
Qed.

Lemma firstn_shape n x :
  has_char TAB (firstn n (collapseWhitespace x)) = false
  /\ occurs [LF; LF; LF] (firstn n (collapseWhitespace x)) = false
  /\ starts_ws (firstn n (collapseWhitespace x)) = false
  /\ ((n <? length (collapseWhitespace x)) = false ->
      ends_ws (firstn n (collapseWhitespace x)) = false).
Proof.
  split; [|split; [|split]].
  - apply has_char_false, firstn_not_In, collapse_no_tab.
  - apply (runs_le_no_occurrence LF 2), firstn_runs_le, collapse_no_newlines.
  - apply firstn_starts, collapse_trimmed.
  - intros Hcut. apply Nat.ltb_ge in Hcut.
    rewrite firstn_all2 by exact Hcut. apply collapse_trimmed.
Qed.

Lemma truncates_last_resort doc b :
  existsb (qualifies doc) KNOWN_SELECTORS = false ->
  forallb (fun e => length (elementText e) <? MIN_LENGTH)
          (heuristicCandidates doc) = true ->
  body doc = Some b ->
  truncates doc
  = (8000 <? length (collapseWhitespace (js_or (innerText b) []))).
Proof.
  intros Hsel Hall Hb. unfold truncates. rewrite Hsel, Hall, Hb.
  reflexivity.
Qed.

(** *** Computed style does not reach tier 1 *)

Lemma element_nested_ind (P : element -> Prop) :
  (forall p n hn hd a d v i t cs,
      Forall P cs -> P (Element p n hn hd a d v i t cs)) ->
  forall e, P e.
Proof.
  intros H. fix IH 1. intros [p n hn hd a d v i t cs]. apply H.
  induction cs as [|c cs IHcs]; constructor; [apply IH | exact IHcs].
Qed.

Lemma preorder_restyle g e :
  preorder (restyle g e) = map (restyle g) (preorder e).
Proof.
  induction e as [p n hn hd a d v i t cs Hcs] using element_nested_ind.
  cbn [restyle preorder map]. f_equal.
  induction Hcs as [|c cs Hc _ IH]; [reflexivity|].
  cbn [map flat_map]. now rewrite map_app, Hc, IH.
Qed.

Lemma matches_restyle g sel e : matches sel (restyle g e) = matches sel e.
Proof. destruct e, sel; reflexivity. Qed.

Lemma elementText_restyle g e : elementText (restyle g e) = elementText e.
Proof. destruct e; reflexivity. Qed.

Lemma find_map_restyle g sel l :
  find (matches sel) (map (restyle g) l)
  = option_map (restyle g) (find (matches sel) l).
Proof.
  induction l as [|e l IH]; [reflexivity|].
  cbn [map find]. rewrite matches_restyle.
  destruct (matches sel e); [reflexivity | exact IH].
Qed.

Lemma querySelector_restyle g sel doc :
  querySelector sel (restyleDocument g doc)
  = option_map (restyle g) (querySelector sel doc).
Proof.
  unfold querySelector, elements, restyleDocument. cbn [documentElement].
  rewrite preorder_restyle. apply find_map_restyle.
Qed.

Lemma selectorTier_restyle g sels doc :
  selectorTier sels (restyleDocument g doc) = selectorTier sels doc.
Proof.
  induction sels as [|s sels IH]; [reflexivity|].
  cbn [selectorTier]. rewrite querySelector_restyle, IH.
  destruct (querySelector s doc) as [e|]; [|reflexivity].
  cbn [option_map]. now rewrite elementText_restyle.
Qed.

(** *** When the call returns *)

Lemma extract_returns_with_body doc b :
  body doc = Some b -> exists s, extractJobDescription doc = Return s.
Proof.
  intros Hb. unfold extractJobDescription.
  destruct (selectorTier KNOWN_SELECTORS doc) as [t|]; [now exists t|].
  destruct (heuristicTier_cases doc) as [(best & -> & _)|[-> _]];
    [now eexists|].
  unfold lastResort. rewrite Hb. now eexists.
Qed.

(** X5: the call throws exactly when the document has no body and neither
    the selector tier nor the heuristic tier qualifies; in every other case
    it returns a string. *)
Lemma extract_throws_iff doc :
  extractJobDescription doc = Throw TypeError <->
  (body doc = None
   /\ existsb (qualifies doc) KNOWN_SELECTORS = false
   /\ forallb (fun e => length (elementText e) <? MIN_LENGTH)
              (heuristicCandidates doc) = true).
Proof.
  unfold extractJobDescription. split.
  - destruct (selectorTier KNOWN_SELECTORS doc) as [t|] eqn:Ht;
      [discriminate|].
    apply selectorTier_none_iff in Ht.
    destruct (heuristicTier_cases doc) as [(best & -> & _)|[-> Hall]];
      [discriminate|].
    unfold lastResort. destruct (body doc); [discriminate | auto].
  - intros (Hb & Hsel & Hall). apply selectorTier_none_iff in Hsel.
    rewrite Hsel, (heuristicTier_low _ Hall). unfold lastResort.
    now rewrite Hb.
Qed.

(** X7: with a body, the result is empty exactly when the last resort is
    reached and the body's rendered text is all whitespace. *)
Lemma extract_empty_iff doc b :
  body doc = Some b ->
  (extractJobDescription doc = Return [] <->
   (existsb (qualifies doc) KNOWN_SELECTORS = false
    /\ forallb (fun e => length (elementText e) <? MIN_LENGTH)
               (heuristicCandidates doc) = true
    /\ forallb isWhiteSpace (innerText b) = true)).
Proof.
  intros Hb. unfold extractJobDescription. split.
  - destruct (selectorTier KNOWN_SELECTORS doc) as [t|] eqn:Ht.
    + intros [= ->]. apply selectorTier_some in Ht.
      destruct Ht as (_ & _ & _ & _ & _ & Hl). cbv in Hl. lia.
    + apply selectorTier_none_iff in Ht.
      destruct (heuristicTier_cases doc) as [(best & -> & Hl)|[-> Hall]].
      * intros [= E]. rewrite E in Hl. cbv in Hl. lia.
      * unfold lastResort. rewrite Hb, js_or_nil_r. intros E.
        apply Return_inj in E. repeat split; auto. apply collapse_nil_iff.
        destruct (collapseWhitespace (innerText b)); [reflexivity|].
        discriminate.
  - intros (Hsel & Hall & Hws). apply selectorTier_none_iff in Hsel.
    rewrite Hsel, (heuristicTier_low _ Hall). unfold lastResort.
    rewrite Hb, js_or_nil_r. apply collapse_nil_iff in Hws.
    now rewrite Hws.
Qed.

(* ================================================================== *)
(** ** The extraction tiers: claims *)
(* ================================================================== *)

(** C1: when [sel] is the first selector of the priority list whose first
    match has at least 200 normalized characters, the result is the
    normalized text of that match, whatever later selectors or heuristic
    candidates would offer. *)
Theorem selector_priority (doc : document) (pre post : list selector)
    (sel : selector) (e : element) :
  KNOWN_SELECTORS = pre ++ sel :: post ->
  existsb (qualifies doc) pre = false ->
  querySelector sel doc = Some e ->
  MIN_LENGTH <= length (elementText e) ->
  extractJobDescription doc = Return (elementText e).
Proof.
  intros Hk Hpre Hq Hlen. unfold extractJobDescription.
  now rewrite (selectorTier_hit doc _ pre sel post e Hk Hpre Hq Hlen).
Qed.

Lemma selector_priority_witness :
  extractJobDescription doc_selector_vs_block = Return (repeat a_ 300).
Proof.
  apply (selector_priority doc_selector_vs_block
           (firstn 2 KNOWN_SELECTORS) (skipn 3 KNOWN_SELECTORS)
           (IdSel "jobDescriptionText")
           (node "div" [attr "id" "jobDescriptionText"] (repeat a_ 300) [])).
  - reflexivity.
  - vm_compute. reflexivity.
  - vm_compute. reflexivity.
  - apply Nat.leb_le. vm_compute. reflexivity.
Defined.


(** On the sample page the two longest blocks tie at 250 characters and
    the earlier one is returned. *)
Example heuristic_tie_first :
  extractJobDescription doc_blocks = Return (repeat a_ 250).
Proof. vm_compute. reflexivity. Qed.

(** With a body: when no selector qualifies and no surviving candidate
    reaches 200 normalized characters, the result is the normalized
    rendered text of the body cut after 8000 characters: a prefix of it of
    length [min 8000 (length bodyText)], hence never longer than 8000 and
    equal to it when it has at most 8000 characters. *)
Lemma last_resort_capture (doc : document) (b : element) :
  existsb (qualifies doc) KNOWN_SELECTORS = false ->
  forallb (fun e => length (elementText e) <? MIN_LENGTH)
          (heuristicCandidates doc) = true ->
  body doc = Some b ->
  let bodyText := collapseWhitespace (js_or (innerText b) []) in
  exists r rest,
    extractJobDescription doc = Return r
    /\ bodyText = r ++ rest
    /\ length r = Nat.min 8000 (length bodyText)
    /\ length r <= 8000
    /\ (length bodyText <= 8000 -> r = bodyText).
Proof.
  intros Hsel Hall Hb bodyText.
  exists (firstn 8000 bodyText), (skipn 8000 bodyText).
  split; [|split; [|split; [|split]]].
  - unfold extractJobDescription. apply selectorTier_none_iff in Hsel.
    rewrite Hsel, (heuristicTier_low _ Hall). unfold lastResort.
    now rewrite Hb.
  - symmetry. apply firstn_skipn.
  - apply length_firstn.
  - rewrite length_firstn. apply Nat.le_min_l.
  - intros H. now apply firstn_all2.
Qed.

Lemma last_resort_capture_short :
  exists r rest,
    extractJobDescription doc_short = Return r
    /\ repeat a_ 50 = r ++ rest
    /\ length r = Nat.min 8000 50
    /\ length r <= 8000
    /\ (50 <= 8000 -> r = repeat a_ 50).
Proof.
  apply (last_resort_capture doc_short
           (node "body" [] (repeat a_ 50)
              [ node "div" [] (repeat a_ 50)
                  [ node "div" [] (repeat a_ 50)
                      [ node "div" [] (repeat a_ 50)
                          [ node "p" [] (repeat a_ 50) [] ] ] ] ])).
  - vm_compute. reflexivity.
  - vm_compute. reflexivity.
  - vm_compute. reflexivity.
Qed.

(** The 50-character example of the specification comes back unchanged. *)
Example last_resort_short :
  extractJobDescription doc_short = Return (repeat a_ 50).
Proof. vm_compute. reflexivity. Qed.

(** C4: on a document without a body in which neither tier qualifies (a
    standalone SVG image, or an HTML document whose body was removed) the
    call does not return a string: reading [document.body.innerText]
    throws. *)
Theorem extract_throws_without_body :
  body doc_svg = None
  /\ extractJobDescription doc_svg = Throw TypeError
  /\ body doc_without_body = None
  /\ extractJobDescription doc_without_body = Throw TypeError.
Proof. repeat split; vm_compute; reflexivity. Qed.

(** C3: on a standalone SVG image no selector qualifies and no element at
    all, hence no heuristic candidate, reaches 200 normalized characters,
    yet the call does not return the body's text: there is no body and
    reading [document.body.innerText] throws. *)
Theorem last_resort_throws_without_body :
  existsb (qualifies doc_svg) KNOWN_SELECTORS = false
  /\ forallb (fun e => length (elementText e) <? MIN_LENGTH)
             (elements doc_svg) = true
  /\ candidates doc_svg = []
  /\ specCandidates doc_svg = []
  /\ body doc_svg = None
  /\ extractJobDescription doc_svg = Throw TypeError.
Proof. repeat split; vm_compute; reflexivity. Qed.

(** C6, as stated, fails in the last-resort path: the cut at 8000
    characters can fall right after a space, leaving trailing whitespace. *)
Lemma truncated_result_not_normalized :
  option_map whitespace_normalized
    (returned (extractJobDescription doc_cut_at_space)) = Some false.
Proof. vm_compute. reflexivity. Qed.

(** C6 (amended): every returned string has no tab, no run of three or
    more newlines and no leading whitespace; it has no trailing whitespace
    either unless it is a last-resort capture that was actually cut. *)
Theorem result_whitespace_normalized (doc : document) (s : jsstring) :
  extractJobDescription doc = Return s ->
  has_char TAB s = false
  /\ occurs [LF; LF; LF] s = false
  /\ starts_ws s = false
  /\ (truncates doc = false -> ends_ws s = false).
Proof.
  assert (Hshape : forall x,
    has_char TAB (collapseWhitespace x) = false
    /\ occurs [LF; LF; LF] (collapseWhitespace x) = false
    /\ starts_ws (collapseWhitespace x) = false
    /\ (truncates doc = false -> ends_ws (collapseWhitespace x) = false)).
  { intros x. repeat split.
    - apply has_char_false, collapse_no_tab.
    - apply (runs_le_no_occurrence LF 2), collapse_no_newlines.
    - apply collapse_trimmed.
    - intros _. apply collapse_trimmed. }
  unfold extractJobDescription.
  destruct (selectorTier KNOWN_SELECTORS doc) as [t|] eqn:Ht.
  - intros [= <-]. apply selectorTier_some in Ht.
    destruct Ht as (_ & e & _ & _ & -> & _). apply Hshape.
  - apply selectorTier_none_iff in Ht.
    destruct (heuristicTier_cases doc) as [(best & -> & _)|[-> Hall]].
    + intros [= <-]. apply Hshape.
    + unfold lastResort. destruct (body doc) as [b|] eqn:Hb; [|discriminate].
      intros H. apply Return_inj in H. subst s.
      rewrite (truncates_last_resort doc b Ht Hall Hb).
      apply firstn_shape.
Qed.

Lemma result_whitespace_normalized_witness :
  has_char TAB (repeat a_ 300) = false
  /\ occurs [LF; LF; LF] (repeat a_ 300) = false
  /\ starts_ws (repeat a_ 300) = false
  /\ (truncates doc_selector_vs_block = false -> ends_ws (repeat a_ 300) = false).
Proof.
  apply (result_whitespace_normalized doc_selector_vs_block (repeat a_ 300)).
  vm_compute. reflexivity.
Defined.

(** C9: tier 1 never looks at the computed style.  If [sel] is the first
    qualifying selector with first match [e], the result is [e]'s
    normalized text however the computed [display] and [visibility] of the
    page's elements are changed, in particular when everything is hidden;
    a hidden element is rejected only by the scan of tier 2. *)
Theorem selector_tier_ignores_visibility (doc : document)
    (g : element -> jsstring * jsstring)
    (pre post : list selector) (sel : selector) (e : element) :
  KNOWN_SELECTORS = pre ++ sel :: post ->
  existsb (qualifies doc) pre = false ->
  querySelector sel doc = Some e ->
  MIN_LENGTH <= length (elementText e) ->
  extractJobDescription (restyleDocument g doc) = Return (elementText e)
  /\ (forall st h, hidden h = true -> scanStep st h = st).
Proof.
  intros Hk Hpre Hq Hlen. split.
  - unfold extractJobDescription. rewrite selectorTier_restyle.
    now rewrite (selectorTier_hit doc _ pre sel post e Hk Hpre Hq Hlen).
  - intros st h Hh. unfold scanStep. now rewrite Hh.
Qed.

Lemma selector_tier_ignores_visibility_witness :
  extractJobDescription (restyleDocument hide_all doc_selector_vs_block)
  = Return (repeat a_ 300)
  /\ (forall st h, hidden h = true -> scanStep st h = st).
Proof.
  apply (selector_tier_ignores_visibility doc_selector_vs_block hide_all
           (firstn 2 KNOWN_SELECTORS) (skipn 3 KNOWN_SELECTORS)
           (IdSel "jobDescriptionText")
           (node "div" [attr "id" "jobDescriptionText"] (repeat a_ 300) [])).
  - reflexivity.
  - vm_compute. reflexivity.
  - vm_compute. reflexivity.
  - apply Nat.leb_le. vm_compute. reflexivity.
Defined.

(** With every element hidden and no known container, tier 2 finds nothing
    and the page falls through to the last resort. *)
Example hidden_blocks_are_skipped :
  extractJobDescription (restyleDocument hide_all doc_blocks)
  = Return (repeat a_ 210 ++ [LF] ++ repeat a_ 250 ++ [LF] ++ repeat b_ 250).
Proof. vm_compute. reflexivity. Qed.

(** C10: only the first match [e] of a selector is examined.  When [e] has
    fewer than 200 normalized characters the loop moves on to the next
    selector, whatever the other matches [others] of the same selector
    contain, and the tier behaves as if the selector were not listed. *)
Theorem selector_first_match_only (doc : document)
    (pre post : list selector) (sel : selector)
    (e : element) (others : list element) :
  KNOWN_SELECTORS = pre ++ sel :: post ->
  querySelectorAll [sel] doc = e :: others ->
  length (elementText e) < MIN_LENGTH ->
  selectorTier (sel :: post) doc = selectorTier post doc
  /\ selectorTier KNOWN_SELECTORS doc = selectorTier (pre ++ post) doc.
Proof.
  intros Hk Hall Hlen.
  assert (Hq : qualifies doc sel = false).
  { unfold qualifies. rewrite querySelector_first, Hall. cbn [hd_error].
    now apply Nat.leb_gt. }
  assert (Hskip := selectorTier_skip doc sel post Hq).
  split; [exact Hskip|]. rewrite Hk.
  destruct (existsb (qualifies doc) pre) eqn:Hpre.
  - clear Hk. induction pre as [|s pre IH]; [discriminate|].
    cbn [existsb] in Hpre. cbn [app selectorTier].
    unfold qualifies in Hpre.
    destruct (querySelector s doc) as [x|].
    + destruct (MIN_LENGTH <=? length (elementText x)); [reflexivity|].
      now apply IH.
    + now apply IH.
  - now rewrite !(selectorTier_app doc pre _ Hpre).
Qed.

Lemma selector_first_match_only_witness :
  selectorTier [TypeSel "article"; TypeSel "main"] doc_two_articles
  = selectorTier [TypeSel "main"] doc_two_articles
  /\ selectorTier KNOWN_SELECTORS doc_two_articles
     = selectorTier (firstn 17 KNOWN_SELECTORS ++ [TypeSel "main"])
         doc_two_articles.
Proof.
  apply (selector_first_match_only doc_two_articles
           (firstn 17 KNOWN_SELECTORS) [TypeSel "main"] (TypeSel "article")
           (node "article" [] (repeat a_ 40) [])
           [node "article" [] (repeat b_ 300) []]).
  - reflexivity.
  - vm_compute. reflexivity.
  - apply Nat.leb_le. vm_compute. reflexivity.
Defined.

(** The long second [article] is never returned by tier 1; the page is
    left to the later tiers. *)
Example second_article_not_selected :
  selectorTier KNOWN_SELECTORS doc_two_articles = None.
Proof. vm_compute. reflexivity. Qed.

(* ================================================================== *)
(** ** Further properties of the normalizer *)
(* ================================================================== *)

Lemma jseqb_eq a b : jseqb a b = true -> a = b.
Proof.
  revert b. induction a as [|x a IH]; intros [|y b]; try discriminate;
    [reflexivity|].
  cbn [jseqb]. intros H. apply andb_prop in H. destruct H as [H1 H2].
  apply N.eqb_eq in H1. subst y. now rewrite (IH b H2).
Qed.

Lemma adjb_occurs a b s : adjb a b s = occurs [a; b] s.
Proof.
  induction s as [|x s IH]; [reflexivity|].
  rewrite adjb_cons, IH. cbn [occurs prefixb]. f_equal.
  rewrite (N.eqb_sym a x). destruct s as [|y s];
    [now rewrite andb_false_r|].
  now rewrite (N.eqb_sym b y), andb_true_r.
Qed.

Lemma content_app l r : content (l ++ r) = content l ++ content r.
Proof. apply filter_app. Qed.

Lemma content_all_ws l : forallb isWhiteSpace l = true -> content l = [].
Proof.
  induction l as [|x l IH]; [reflexivity|]. cbn [forallb content filter].
  intros H. apply andb_prop in H. destruct H as [Hx Hl].
  unfold notWhiteSpace. rewrite Hx. exact (IH Hl).
Qed.

Lemma content_repeat_ws c n : isWhiteSpace c = true -> content (repeat c n) = [].
Proof.
  intros Hc. apply content_all_ws. induction n as [|n IH]; [reflexivity|].
  cbn [repeat forallb]. now rewrite Hc.
Qed.

Lemma content_cons x s :
  content (x :: s) = if isWhiteSpace x then content s else x :: content s.
Proof. unfold content, notWhiteSpace. cbn [filter]. now destruct (isWhiteSpace x). Qed.

Lemma content_replace_crlf s : content (replace_crlf s) = content s.
Proof.
  induction s as [| c | rest IH | c d rest Hcd IH] using replace_crlf_ind;
    try reflexivity.
  - rewrite replace_crlf_crlf, !content_cons. exact IH.
  - rewrite (replace_crlf_other _ _ _ Hcd), !(content_cons c), IH.
    reflexivity.
Qed.

Lemma content_replace_tabs s : content (replace_tabs s) = content s.
Proof.
  induction s as [|x s IH]; [reflexivity|].
  change (replace_tabs (x :: s))
    with ((if N.eqb x TAB then SP else x) :: replace_tabs s).
  rewrite !content_cons, IH.
  destruct (N.eqb_spec x TAB); [subst x|]; reflexivity.
Qed.

Lemma content_go c k (Hk : 1 <= k) :
  isWhiteSpace c = true ->
  forall s n,
    content (replace_runs_from c (S k) (repeat c k) n s) = content s.
Proof.
  intros Hc. apply (go_ind c).
  - intros n. rewrite (go_nil c k Hk). now apply content_repeat_ws.
  - intros n s IH. rewrite go_same, IH, content_cons, Hc. reflexivity.
  - intros n x s Hx IH. rewrite (go_other c k Hk n x s Hx).
    rewrite content_app, (content_repeat_ws c _ Hc).
    cbn [app]. rewrite !content_cons, IH. reflexivity.
Qed.

Lemma content_trim s : content (trim s) = content s.
Proof.
  destruct (trim_infix s) as (l & r & E & Hl & Hr).
  rewrite E at 2. rewrite !content_app.
  rewrite (content_all_ws l Hl), (content_all_ws r Hr).
  now rewrite app_nil_r.
Qed.

Lemma length_replace_crlf s : length (replace_crlf s) <= length s.
Proof.
  induction s as [| c | rest IH | c d rest Hcd IH] using replace_crlf_ind.
  - simpl. lia.
  - simpl. lia.
  - rewrite replace_crlf_crlf. simpl. lia.
  - rewrite (replace_crlf_other _ _ _ Hcd). simpl in *. lia.
Qed.

Lemma length_replace_crlf_lt s :
  adjb CR LF s = true -> length (replace_crlf s) < length s.
Proof.
  induction s as [| c | rest IH | c d rest Hcd IH] using replace_crlf_ind;
    try discriminate.
  - intros _. rewrite replace_crlf_crlf.
    pose proof (length_replace_crlf rest). simpl. lia.
  - rewrite adjb_cons, orb_true_iff, andb_true_iff, !N.eqb_eq.
    intros [H|H]; [tauto|].
    rewrite (replace_crlf_other _ _ _ Hcd). specialize (IH H).
    simpl in *. lia.
Qed.

Lemma length_go c k (Hk : 1 <= k) :
  forall s n,
    length (replace_runs_from c (S k) (repeat c k) n s) <= n + length s.
Proof.
  apply (go_ind c).
  - intros n. rewrite (go_nil c k Hk), repeat_length. simpl. lia.
  - intros n s IH. rewrite go_same. simpl. lia.
  - intros n x s Hx IH. rewrite (go_other c k Hk n x s Hx).
    rewrite length_app, repeat_length. simpl in *. lia.
Qed.

Lemma length_trim s : length (trim s) <= length s.
Proof.
  destruct (trim_infix s) as (l & r & E & _).
  rewrite E at 2. rewrite !length_app. lia.
Qed.

Lemma length_step4 x : length (step4 x) <= length (replace_crlf x).
Proof.
  unfold step4. rewrite replace_runs_LF.
  eapply Nat.le_trans; [apply (length_go LF 2); lia|].
  unfold step3. rewrite replace_runs_SP. cbn [Nat.add].
  eapply Nat.le_trans; [apply (length_go SP 1); lia|].
  unfold step2, step1, replace_tabs. rewrite length_map. apply le_n.
Qed.

(** X1: the normalizer only touches whitespace: the non-whitespace
    characters of the output are those of the input, in the same order. *)
Theorem collapseWhitespace_keeps_content (x : jsstring) :
  content (collapseWhitespace x) = content x.
Proof.
  rewrite collapseWhitespace_steps, content_trim.
  unfold step4, step3, step2, step1.
  rewrite replace_runs_LF, (content_go LF 2) by (lia || reflexivity).
  rewrite replace_runs_SP, (content_go SP 1) by (lia || reflexivity).
  now rewrite content_replace_tabs, content_replace_crlf.
Qed.

(** X2: the normalizer never makes a string longer. *)
Theorem collapseWhitespace_length (x : jsstring) :
  length (collapseWhitespace x) <= length x.
Proof.
  rewrite collapseWhitespace_steps.
  pose proof (length_trim (step4 x)). pose proof (length_step4 x).
  pose proof (length_replace_crlf x). lia.
Qed.

(** X3: the output is empty exactly when the input consists of whitespace
    only (in particular when it is empty). *)
Theorem collapseWhitespace_empty_iff (x : jsstring) :
  collapseWhitespace x = [] <-> forallb isWhiteSpace x = true.
Proof. apply collapse_nil_iff. Qed.

Lemma collapse_fixed_iff (y : jsstring) :
  collapseWhitespace y = y <-> normal_form y = true.
Proof.
  unfold normal_form. rewrite !andb_true_iff, !negb_true_iff. split.
  - intros E.
    assert (Hcr : adjb CR LF y = false).
    { destruct (adjb CR LF y) eqn:H; [|reflexivity]. exfalso.
      apply length_replace_crlf_lt in H.
      pose proof (length_trim (step4 y)). pose proof (length_step4 y).
      rewrite <- collapseWhitespace_steps, E in *. lia. }
    rewrite <- adjb_occurs, <- E. repeat split.
    + rewrite E. exact Hcr.
    + apply has_char_false, collapse_no_tab.
    + apply (runs_le_no_occurrence SP 1), collapse_no_spaces.
    + apply (runs_le_no_occurrence LF 2), collapse_no_newlines.
    + apply collapse_trimmed.
    + apply collapse_trimmed.
  - intros (((((H1 & H2) & H3) & H4) & H5) & H6).
    apply collapse_fixed; try assumption.
    + now rewrite adjb_occurs.
    + now apply has_char_false.
    + rewrite runs_le_occurs. cbn [repeat]. now rewrite H3.
    + rewrite runs_le_occurs. cbn [repeat]. now rewrite H4.
Qed.

(** X4: the fixed points of the normalizer are exactly the strings in
    normal form. *)
Theorem collapseWhitespace_fixed_point_iff (y : jsstring) :
  collapseWhitespace y = y <-> normal_form y = true.
Proof. apply collapse_fixed_iff. Qed.

(** X20: a second pass changes the result of the first exactly when the
    first result still contains a CRLF pair. *)
Theorem collapseWhitespace_second_pass_iff (x : jsstring) :
  collapseWhitespace (collapseWhitespace x) = collapseWhitespace x
  <-> occurs [CR; LF] (collapseWhitespace x) = false.
Proof.
  rewrite collapse_fixed_iff. unfold normal_form.
  rewrite !andb_true_iff, !negb_true_iff. split; [tauto|].
  intros H. repeat split.
  - exact H.
  - apply has_char_false, collapse_no_tab.
  - apply (runs_le_no_occurrence SP 1), collapse_no_spaces.
  - apply (runs_le_no_occurrence LF 2), collapse_no_newlines.
  - apply collapse_trimmed.
  - apply collapse_trimmed.
Qed.

(* ================================================================== *)
(** ** Further properties of the extraction *)
(* ================================================================== *)

Lemma extract_empty_iff_witness :
  extractJobDescription doc_blank = Return [] <->
  (existsb (qualifies doc_blank) KNOWN_SELECTORS = false
   /\ forallb (fun e => length (elementText e) <? MIN_LENGTH)
              (heuristicCandidates doc_blank) = true
   /\ forallb isWhiteSpace [SP; LF; TAB] = true).
Proof.
  apply (extract_empty_iff doc_blank (node "body" [] [SP; LF; TAB] [])).
  vm_compute. reflexivity.
Defined.

Lemma pick_winner_in l : forall st e,
  fst (fold_left pick l st) = Some e -> fst st = Some e \/ In e l.
Proof.
  induction l as [|x l IH]; intros st e H; [now left|].
  cbn [fold_left] in H. apply IH in H. destruct H as [H|H]; [|right; now right].
  unfold pick in H. destruct (snd st <? length (elementText x)).
  - cbn [fst] in H. injection H as ->. right. now left.
  - now left.
Qed.

Lemma scan_winner_in doc e :
  fst (scan doc) = Some e -> In e (heuristicCandidates doc).
Proof.
  rewrite scan_heuristicCandidates. intros H.
  apply pick_winner_in in H. destruct H as [H|H]; [discriminate | exact H].
Qed.

Lemma heuristicTier_cases_in doc :
  (exists best, In best (heuristicCandidates doc)
                /\ heuristicTier doc = Return (elementText best)
                /\ MIN_LENGTH <= length (elementText best))
  \/ (heuristicTier doc = lastResort doc
      /\ forallb (fun e => length (elementText e) <? MIN_LENGTH)
                 (heuristicCandidates doc) = true).
Proof.
  destruct (scan_consistent doc) as [Hc _].
  pose proof (scan_low_iff doc) as Hlow.
  pose proof (scan_winner_in doc) as Hin. unfold heuristicTier.
  destruct (scan doc) as [[best|] n]; cbn [fst snd] in *.
  - destruct (Nat.leb_spec MIN_LENGTH n) as [Hn|Hn].
    + left. exists best. rewrite elementText_best.
      split; [now apply Hin|]. split; [reflexivity|].
      now rewrite <- (Hc best eq_refl).
    + right. split; [reflexivity|]. apply Hlow. now right.
  - right. split; [reflexivity|]. apply Hlow. now left.
Qed.

(** X6: every returned string is the normalized text of a first selector
    match or of a surviving heuristic candidate, with at least 200
    characters, or else the last-resort capture of the body; in particular
    a result shorter than 200 characters is always a last-resort capture. *)
Theorem extract_provenance (doc : document) (s : jsstring) :
  extractJobDescription doc = Return s ->
  provenance doc s
  /\ (length s < MIN_LENGTH ->
      exists b, body doc = Some b
                /\ s = firstn 8000
                         (collapseWhitespace (js_or (innerText b) []))).
Proof.
  unfold extractJobDescription.
  destruct (selectorTier KNOWN_SELECTORS doc) as [t|] eqn:Ht.
  - intros H. apply Return_inj in H. subst t.
    apply selectorTier_some in Ht.
    destruct Ht as (sel & e & Hin & Hq & E & Hl).
    split; [exact (FromSelector doc s sel e Hin Hq E Hl) | lia].
  - apply selectorTier_none_iff in Ht.
    destruct (heuristicTier_cases_in doc)
      as [(best & Hin & -> & Hl)|[-> Hall]].
    + intros H. apply Return_inj in H. subst s.
      split; [exact (FromHeuristic doc _ best Ht Hin eq_refl Hl) | lia].
    + unfold lastResort. destruct (body doc) as [b|] eqn:Hb; [|discriminate].
      intros H. apply Return_inj in H.
      split; [exact (FromLastResort doc s b Ht Hall Hb (eq_sym H))|].
      intros _. exists b. split; [reflexivity | now symmetry].
Qed.

Lemma extract_provenance_witness :
  provenance doc_short (repeat a_ 50)
  /\ (length (repeat a_ 50) < MIN_LENGTH ->
      exists b, body doc_short = Some b
                /\ repeat a_ 50
                   = firstn 8000
                       (collapseWhitespace (js_or (innerText b) []))).
Proof.
  apply (extract_provenance doc_short (repeat a_ 50)).
  vm_compute. reflexivity.
Defined.

Lemma candidate_localName doc e :
  In e (candidates doc) ->
  localName e = lit "div" \/ localName e = lit "section"
  \/ localName e = lit "article" \/ localName e = lit "main".
Proof.
  unfold candidates, querySelectorAll. rewrite filter_In.
  intros [_ H]. cbn [existsb matches] in H.
  rewrite !orb_true_iff in H.
  destruct H as [H|[H|[H|[H|H]]]]; [| | | |discriminate];
    apply jseqb_eq in H; auto.
Qed.

Lemma has_In set x : has set x = true -> In x set.
Proof.
  unfold has. rewrite existsb_exists. intros (y & Hy & E).
  apply jseqb_eq in E. now subst.
Qed.

Lemma skip_tag_no_colon t : has SKIP_TAGS t = true -> ~ In 58%N t.
Proof.
  intros H. apply has_In in H. apply has_char_false.
  unfold SKIP_TAGS in H. cbn [map In] in H.
  repeat (destruct H as [<-|H]; [reflexivity|]). destruct H.
Qed.

Lemma upper_colon s : In 58%N s -> In 58%N (map ascii_upper s).
Proof. intros H. apply (in_map ascii_upper) in H. exact H. Qed.

(** X8: the boilerplate-tag rejection of the scan never fires: every
    candidate is a [div], [section], [article] or [main], whose tag name,
    upper-cased or not, prefixed or not, is never in [SKIP_TAGS]; so a
    candidate survives exactly when it is visible and the scan counts at
    most 12 direct block children. *)
Theorem skip_tags_never_reject (doc : document) (e : element) :
  In e (candidates doc) ->
  has SKIP_TAGS (tagName e) = false
  /\ eligible e = negb (hidden e) && (directBlockChildren e <=? 12).
Proof.
  intros Hin.
  assert (H : has SKIP_TAGS (tagName e) = false).
  { apply candidate_localName in Hin.
    destruct (has SKIP_TAGS (tagName e)) eqn:Hs; [|reflexivity]. exfalso.
    unfold tagName, qualifiedName in Hs.
    destruct (prefix e) as [p|].
    - apply skip_tag_no_colon in Hs. apply Hs.
      destruct (htmlNamespace e && htmlDocument e);
        [apply upper_colon|]; apply in_or_app; right; now left.
    - destruct (htmlNamespace e && htmlDocument e);
        destruct Hin as [E|[E|[E|E]]]; rewrite E in Hs; discriminate. }
  split; [exact H|]. unfold eligible. rewrite H.
  now rewrite andb_true_r.
Qed.

Lemma skip_tags_never_reject_witness :
  has SKIP_TAGS (tagName (node "section" [] (repeat a_ 250) [])) = false
  /\ eligible (node "section" [] (repeat a_ 250) [])
     = negb (hidden (node "section" [] (repeat a_ 250) []))
       && (directBlockChildren (node "section" [] (repeat a_ 250) []) <=? 12).
Proof.
  apply (skip_tags_never_reject doc_blocks).
  vm_compute. right. left. reflexivity.
Defined.

(* ------------------------------------------------------------------ *)
(** *** On an HTML page the scan keeps the specification's candidates *)



















(** A block with 13 paragraphs is passed over although it holds all the
    text; the page falls through to the last resort. *)
Example wide_wrapper_is_skipped :
  fst (scan doc_wrapper) = None
  /\ extractJobDescription doc_wrapper = Return (repeat a_ 390).
Proof. split; vm_compute; reflexivity. Qed.

(* ================================================================== *)
(** ** The tree-walking version: lemmas and properties *)
(* ================================================================== *)

(** *** Collapsing runs of two different characters commutes *)

Section TwoRuns.
Variables (c1 c2 : char) (k1 k2 : nat).
Hypothesis H1 : 1 <= k1.
Hypothesis H2 : 1 <= k2.
Hypothesis Hne : c1 <> c2.

Let g1 := replace_runs_from c1 (S k1) (repeat c1 k1).
Let g2 := replace_runs_from c2 (S k2) (repeat c2 k2).

Lemma g1_repeat_other j t : g1 0 (repeat c2 j ++ t) = repeat c2 j ++ g1 0 t.
Proof.
  induction j as [|j IH]; [reflexivity|]. cbn [repeat app]. unfold g1.
  rewrite (go_other c1 k1 H1 0 c2 _ (not_eq_sym Hne)). cbn [repeat app Nat.min].
  f_equal. exact IH.
Qed.

Lemma g1_repeat_other_nil j : g1 0 (repeat c2 j) = repeat c2 j.
Proof.
  rewrite <- (app_nil_r (repeat c2 j)) at 1. rewrite g1_repeat_other.
  unfold g1. rewrite (go_nil c1 k1 H1). cbn [Nat.min repeat].
  apply app_nil_r.
Qed.

Lemma g1_pending n x t :
  x <> c1 -> g1 n (x :: t) = repeat c1 (Nat.min n k1) ++ g1 0 (x :: t).
Proof.
  intros Hx. unfold g1.
  rewrite (go_other c1 k1 H1 n x t Hx), (go_other c1 k1 H1 0 x t Hx).
  reflexivity.
Qed.

Lemma lead_go_other :
  forall s n, lead c2 (g1 n s) <= lead c2 (repeat c1 n ++ s).
Proof.
  apply (go_ind c1 (fun n s =>
    lead c2 (g1 n s) <= lead c2 (repeat c1 n ++ s))).
  - intros n. unfold g1. rewrite (go_nil c1 k1 H1), app_nil_r.
    destruct (Nat.min n k1); simpl; [lia|].
    destruct (N.eqb_spec c1 c2); [contradiction | lia].
  - intros n s IH. unfold g1 in *. now rewrite go_same, repeat_shift.
  - intros n x s Hx IH. unfold g1 in *.
    rewrite (go_other c1 k1 H1 n x s Hx).
    destruct n as [|n].
    + cbn [Nat.min repeat app lead].
      destruct (N.eqb x c2); [|lia]. cbn [repeat app] in IH. lia.
    + destruct k1 as [|k1']; [lia|]. cbn [Nat.min repeat app lead].
      destruct (N.eqb_spec c1 c2); [contradiction | lia].
Qed.

Lemma runs_le_go_other k :
  forall s n, runs_le c2 k s = true -> runs_le c2 k (g1 n s) = true.
Proof.
  apply (go_ind c1 (fun n s =>
    runs_le c2 k s = true -> runs_le c2 k (g1 n s) = true)).
  - intros n Hnil. unfold g1. rewrite (go_nil c1 k1 H1).
    induction (Nat.min n k1) as [|j IH]; [reflexivity|].
    cbn [repeat runs_le lead]. destruct (N.eqb_spec c1 c2); [contradiction|].
    exact IH.
  - intros n s IH Hs. unfold g1 in *. rewrite go_same. apply IH.
    now apply runs_le_tail in Hs.
  - intros n x s Hx IH Hs. unfold g1 in *.
    rewrite (go_other c1 k1 H1 n x s Hx).
    assert (Hx' : runs_le c2 k (x :: replace_runs_from c1 (S k1)
                                        (repeat c1 k1) 0 s) = true).
    { pose proof (runs_le_lead _ _ _ Hs) as Hl.
      pose proof (runs_le_tail _ _ _ _ Hs) as Ht.
      cbn [runs_le]. rewrite (IH Ht), andb_true_r. apply Nat.leb_le.
      pose proof (lead_go_other s 0) as Hg. unfold g1 in Hg.
      cbn [repeat app] in Hg. cbn [lead] in *.
      destruct (N.eqb x c2); lia. }
    induction (Nat.min n k1) as [|j IHj]; [exact Hx'|].
    cbn [repeat app runs_le lead]. destruct (N.eqb_spec c1 c2);
      [contradiction|]. exact IHj.
Qed.
End TwoRuns.

Section Commute.
Variables (c1 c2 : char) (k1 k2 : nat).
Hypothesis H1 : 1 <= k1.
Hypothesis H2 : 1 <= k2.
Hypothesis Hne : c1 <> c2.

Let g1 := replace_runs_from c1 (S k1) (repeat c1 k1).
Let g2 := replace_runs_from c2 (S k2) (repeat c2 k2).

Lemma commute_step x s :
  (forall n, g1 n (g2 0 s) = g2 0 (g1 n s)) ->
  (forall m, g2 m (g1 0 s) = g1 0 (g2 m s)) ->
  forall n, g1 n (g2 0 (x :: s)) = g2 0 (g1 n (x :: s)).
Proof.
  intros IHa IHb n. unfold g1, g2 in *.
  destruct (N.eq_dec x c1) as [->|Hx1].
  - rewrite (go_other c2 k2 H2 0 c1 s Hne). cbn [Nat.min repeat app].
    now rewrite !go_same, IHa.
  - rewrite (go_other c1 k1 H1 n x s Hx1).
    rewrite (g1_repeat_other c2 c1 k2 H2 (not_eq_sym Hne)).
    destruct (N.eq_dec x c2) as [->|Hx2].
    + rewrite !go_same, IHb.
      pose proof (go_head c2 k2 H2 s 1) as Hh. cbn [repeat app hd_error] in Hh.
      destruct (replace_runs_from c2 (S k2) (repeat c2 k2) 1 s)
        as [|y t]; [discriminate|]. injection Hh as ->.
      apply (g1_pending c1 k1 H1 n c2 t (not_eq_sym Hne)).
    + rewrite (go_other c2 k2 H2 0 x s Hx2). cbn [Nat.min repeat app].
      rewrite (go_other c1 k1 H1 n x _ Hx1), IHa.
      now rewrite (go_other c2 k2 H2 0 x _ Hx2).
Qed.
End Commute.

Lemma replace_runs_commute c1 c2 k1 k2 :
  1 <= k1 -> 1 <= k2 -> c1 <> c2 ->
  forall s,
    (forall n, replace_runs_from c1 (S k1) (repeat c1 k1) n
                 (replace_runs_from c2 (S k2) (repeat c2 k2) 0 s)
               = replace_runs_from c2 (S k2) (repeat c2 k2) 0
                   (replace_runs_from c1 (S k1) (repeat c1 k1) n s))
    /\ (forall m, replace_runs_from c2 (S k2) (repeat c2 k2) m
                    (replace_runs_from c1 (S k1) (repeat c1 k1) 0 s)
                  = replace_runs_from c1 (S k1) (repeat c1 k1) 0
                      (replace_runs_from c2 (S k2) (repeat c2 k2) m s)).
Proof.
  intros H1 H2 Hne. induction s as [|x s [IHa IHb]].
  - split; intros n.
    + rewrite (go_nil c2 k2 H2 0). cbn [Nat.min repeat].
      rewrite (go_nil c1 k1 H1 n). symmetry.
      apply (g1_repeat_other_nil c2 c1 k2 H2 (not_eq_sym Hne)).
    + rewrite (go_nil c1 k1 H1 0). cbn [Nat.min repeat].
      rewrite (go_nil c2 k2 H2 n). symmetry.
      apply (g1_repeat_other_nil c1 c2 k1 H1 Hne).
  - split.
    + apply (commute_step c1 c2 k1 k2 H1 H2 Hne); assumption.
    + apply (commute_step c2 c1 k2 k1 H2 H1 (not_eq_sym Hne)); assumption.
Qed.

(** *** The cleaning pipeline of the walk *)

Lemma clean_steps x :
  TreeWalk.clean x
  = trim (replace_runs_from SP (S 1) (repeat SP 1) 0
            (replace_runs_from LF (S 2) (repeat LF 2) 0 x)).
Proof. reflexivity. Qed.

Lemma SP_neq_LF : SP <> LF.
Proof. discriminate. Qed.

Lemma clean_no_spaces x : runs_le SP 1 (TreeWalk.clean x) = true.
Proof. rewrite clean_steps. apply trim_runs_le, go_runs_le. lia. Qed.

Lemma clean_no_newlines x : runs_le LF 2 (TreeWalk.clean x) = true.
Proof.
  rewrite clean_steps. apply trim_runs_le.
  apply (runs_le_go_other SP LF 1 1); try lia; [exact SP_neq_LF|].
  apply go_runs_le. lia.
Qed.

Lemma clean_trimmed x :
  starts_ws (TreeWalk.clean x) = false /\ ends_ws (TreeWalk.clean x) = false.
Proof. rewrite clean_steps. apply trim_trimmed. Qed.

Lemma clean_fixed y :
  runs_le SP 1 y = true -> runs_le LF 2 y = true ->
  starts_ws y = false -> ends_ws y = false ->
  TreeWalk.clean y = y.
Proof.
  intros H1 H2 H3 H4. rewrite clean_steps.
  rewrite (go_id LF 2) by (first [lia | exact H2]). cbn [repeat app].
  rewrite (go_id SP 1) by (first [lia | exact H1]). cbn [repeat app].
  now apply trim_id.
Qed.

Lemma content_clean x : content (TreeWalk.clean x) = content x.
Proof.
  rewrite clean_steps, content_trim.
  rewrite (content_go SP 1) by (lia || reflexivity).
  now rewrite (content_go LF 2) by (lia || reflexivity).
Qed.

(** X10: every string returned by the tree-walking script has no two
    consecutive spaces, no three consecutive newlines and no whitespace at
    either end. *)
Theorem walk_result_shape (doc : TreeWalk.document) (s : jsstring) :
  TreeWalk.extractJobDescription doc = Return s ->
  occurs [SP; SP] s = false
  /\ occurs [LF; LF; LF] s = false
  /\ starts_ws s = false
  /\ ends_ws s = false.
Proof.
  unfold TreeWalk.extractJobDescription.
  destruct (TreeWalk.body doc) as [b|]; [|discriminate].
  intros H. apply Return_inj in H. subst s. repeat split.
  - apply (runs_le_no_occurrence SP 1), clean_no_spaces.
  - apply (runs_le_no_occurrence LF 2), clean_no_newlines.
  - apply clean_trimmed.
  - apply clean_trimmed.
Qed.

Lemma walk_result_shape_witness :
  occurs [SP; SP] (lit "Builder" ++ [LF] ++ lit "We need" ++ [TAB]
                   ++ lit "a builder.") = false
  /\ occurs [LF; LF; LF] (lit "Builder" ++ [LF] ++ lit "We need" ++ [TAB]
                          ++ lit "a builder.") = false
  /\ starts_ws (lit "Builder" ++ [LF] ++ lit "We need" ++ [TAB]
                ++ lit "a builder.") = false
  /\ ends_ws (lit "Builder" ++ [LF] ++ lit "We need" ++ [TAB]
              ++ lit "a builder.") = false.
Proof.
  apply (walk_result_shape TreeWalk.sample). vm_compute. reflexivity.
Defined.

(** X11: the cleaning step of the tree-walking script is idempotent on
    every input. *)
Theorem walk_clean_idempotent (x : jsstring) :
  TreeWalk.clean (TreeWalk.clean x) = TreeWalk.clean x.
Proof.
  apply clean_fixed.
  - apply clean_no_spaces.
  - apply clean_no_newlines.
  - apply clean_trimmed.
  - apply clean_trimmed.
Qed.

(** X12: on text without tabs and without CRLF pairs the two scripts
    normalize alike: [collapseWhitespace] and the cleaning step of the
    tree-walking script return the same string, although they collapse
    spaces and newlines in opposite order. *)
Theorem normalizers_agree (x : jsstring) :
  has_char TAB x = false ->
  occurs [CR; LF] x = false ->
  collapseWhitespace x = TreeWalk.clean x.
Proof.
  intros Ht Hc. rewrite <- adjb_occurs in Hc. apply has_char_false in Ht.
  rewrite clean_steps. unfold collapseWhitespace.
  rewrite (replace_crlf_id _ Hc), (replace_tabs_id _ Ht).
  rewrite replace_runs_LF, replace_runs_SP. f_equal.
  destruct (replace_runs_commute LF SP 2 1) with (s := x) as [Ha _];
    try lia; [apply not_eq_sym, SP_neq_LF|].
  apply Ha.
Qed.

Lemma normalizers_agree_witness :
  has_char TAB text_example = false
  /\ occurs [CR; LF] text_example = false
  /\ collapseWhitespace text_example = TreeWalk.clean text_example.
Proof.
  split; [reflexivity|]. split; [reflexivity|].
  apply (normalizers_agree text_example); reflexivity.
Defined.

(** *** The walk *)

Lemma walk_node_ind (P : TreeWalk.node -> Prop) :
  (forall data, P (TreeWalk.Text data)) ->
  (forall tag d v kids, Forall P kids -> P (TreeWalk.Elem tag d v kids)) ->
  P TreeWalk.Other ->
  forall n, P n.
Proof.
  intros Ht He Ho. fix IH 1. intros [data|tag d v kids|].
  - apply Ht.
  - apply He. induction kids as [|c kids IHk]; constructor;
      [apply IH | exact IHk].
  - exact Ho.
Qed.

Lemma trim_piece data : trim data <> [] -> piece (trim data).
Proof. intros H. split; [exact H | apply trim_trimmed]. Qed.

Lemma collectText_appends (n : TreeWalk.node) :
  forall parts, exists added,
    TreeWalk.collectText n parts = parts ++ added
    /\ Forall piece added.
Proof.
  induction n as [data|tag d v kids IHk|] using walk_node_ind; intros parts.
  - cbn [TreeWalk.collectText].
    destruct (Nat.ltb_spec 0 (length (trim data))) as [Hl|Hl].
    + exists [trim data]. split; [reflexivity|]. constructor; [|constructor].
      apply trim_piece. intros E. rewrite E in Hl. simpl in Hl. lia.
    + exists []. now rewrite app_nil_r.
  - cbn [TreeWalk.collectText].
    destruct (jseqb d (lit "none") || jseqb v (lit "hidden"));
      [exists []; now rewrite app_nil_r|].
    destruct (has TreeWalk.SKIP_TAGS tag);
      [exists []; now rewrite app_nil_r|].
    revert parts. induction IHk as [|c kids Hc _ IH]; intros parts.
    + exists []. now rewrite app_nil_r.
    + cbn [fold_left]. destruct (Hc parts) as (a1 & -> & F1).
      destruct (IH (parts ++ a1)) as (a2 & -> & F2).
      exists (a1 ++ a2). split; [now rewrite app_assoc|].
      apply Forall_app. now split.
  - exists []. now rewrite app_nil_r.
Qed.

(** X13: [collectText] only appends: the pieces already collected are kept
    in place, and every piece it adds is non-empty and has no whitespace
    at either end. *)
Theorem collectText_appends_pieces (n : TreeWalk.node)
    (parts : list jsstring) :
  exists added,
    TreeWalk.collectText n parts = parts ++ added
    /\ Forall piece added.
Proof. apply collectText_appends. Qed.

Lemma piece_content p : piece p -> content p <> [].
Proof.
  intros (Hne & Hs & _). destruct p as [|c p]; [contradiction|].
  cbn [starts_ws] in Hs. rewrite content_cons, Hs. discriminate.
Qed.

Lemma join_content_nonempty parts :
  Forall piece parts -> parts <> [] ->
  content (TreeWalk.join [LF] parts) <> [].
Proof.
  intros F Hne. destruct F as [|p rest Hp _]; [contradiction|].
  cbn [TreeWalk.join]. pose proof (piece_content p Hp) as Hc.
  destruct rest; [exact Hc|]. rewrite content_app.
  destruct (content p); [contradiction | discriminate].
Qed.

(** X14: with a body, the tree-walking script returns the empty string
    exactly when the walk collects no piece, that is when no text node
    outside hidden and boilerplate elements has a non-whitespace
    character. *)
Theorem walk_empty_iff (doc : TreeWalk.document) (b : TreeWalk.node) :
  TreeWalk.body doc = Some b ->
  (TreeWalk.extractJobDescription doc = Return []
   <-> TreeWalk.collectText b [] = []).
Proof.
  intros Hb. unfold TreeWalk.extractJobDescription. rewrite Hb. split.
  - intros H. apply Return_inj in H.
    destruct (collectText_appends b []) as (added & E & F).
    cbn [app] in E. rewrite E in *.
    destruct added as [|p rest]; [reflexivity|]. exfalso.
    apply (join_content_nonempty (p :: rest) F); [discriminate|].
    now rewrite <- content_clean, H.
  - intros ->. reflexivity.
Qed.

Lemma walk_empty_iff_witness :
  TreeWalk.extractJobDescription
    (TreeWalk.Document (Some (TreeWalk.Text [SP; LF]))) = Return []
  <-> TreeWalk.collectText (TreeWalk.Text [SP; LF]) [] = [].
Proof.
  apply (walk_empty_iff (TreeWalk.Document (Some (TreeWalk.Text [SP; LF])))).
  reflexivity.
Defined.

(** On the sample page the navigation bar, the hidden banner and the blank
    text node leave no trace; the tab inside the paragraph is kept. *)
Example walk_sample :
  TreeWalk.extractJobDescription TreeWalk.sample
  = Return (lit "Builder" ++ [LF] ++ lit "We need" ++ [TAB]
            ++ lit "a builder.").
Proof. vm_compute. reflexivity. Qed.

(* ================================================================== *)
(** ** The popup and the serverless function: lemmas and properties *)
(* ================================================================== *)


Lemma piece_trim_id p : piece p -> trim p = p.
Proof. intros (_ & Hs & He). now apply trim_id. Qed.

(** *** Splitting into words *)

Lemma split_ws_concat s : forall cur in_run,
  (in_run = true -> cur = []) ->
  concat (Popup.split_ws_from cur in_run s) = cur ++ content s.
Proof.
  induction s as [|c s IH]; intros cur in_run Hrun.
  - cbn [Popup.split_ws_from concat content filter]. reflexivity.
  - cbn [Popup.split_ws_from]. rewrite content_cons.
    destruct (isWhiteSpace c).
    + destruct in_run.
      * rewrite (Hrun eq_refl). now apply IH.
      * cbn [concat]. now rewrite IH.
    + rewrite IH by discriminate. now rewrite <- app_assoc.
Qed.

Lemma split_ws_clean s : forall cur in_run,
  forallb notWhiteSpace cur = true ->
  Forall (fun w => forallb notWhiteSpace w = true)
         (Popup.split_ws_from cur in_run s).
Proof.
  induction s as [|c s IH]; intros cur in_run Hcur.
  - cbn [Popup.split_ws_from]. now constructor.
  - cbn [Popup.split_ws_from]. destruct (isWhiteSpace c) eqn:Hc.
    + destruct in_run; [now apply IH|]. constructor; [exact Hcur|].
      now apply IH.
    + apply IH. rewrite forallb_app, Hcur. cbn [forallb].
      unfold notWhiteSpace. now rewrite Hc.
Qed.

Lemma split_ws_nonempty s : forall cur in_run,
  (in_run = false -> cur <> [] \/ starts_ws s = false) ->
  match s with [] => cur <> [] | _ :: _ => ends_ws s = false end ->
  Forall (fun w => w <> []) (Popup.split_ws_from cur in_run s).
Proof.
  induction s as [|c s IH]; intros cur in_run Hhead Hend.
  - cbn [Popup.split_ws_from]. now constructor.
  - cbn [Popup.split_ws_from].
    assert (Hnext : isWhiteSpace c = true ->
              match s with [] => @nil char <> [] | _ :: _ => ends_ws s = false end).
    { intros Hc. destruct s as [|d s]; [|exact Hend].
      cbn [ends_ws] in Hend. congruence. }
    destruct (isWhiteSpace c) eqn:Hc.
    + destruct in_run.
      * apply IH; [discriminate | now apply Hnext].
      * constructor.
        -- destruct (Hhead eq_refl) as [H|H]; [exact H|].
           cbn [starts_ws] in H. congruence.
        -- apply IH; [discriminate | now apply Hnext].
    + apply IH.
      * intros _. left. now destruct cur.
      * destruct s as [|d s]; [now destruct cur | exact Hend].
Qed.

Lemma split_ws_length s : forall cur in_run,
  (in_run = true -> cur = []) ->
  (in_run = false -> cur <> [] \/ starts_ws s = false) ->
  match s with [] => cur <> [] | _ :: _ => ends_ws s = false end ->
  length (Popup.split_ws_from cur in_run s)
  = (match cur with [] => 0 | _ :: _ => 1 end)
    + countWords_from (match cur with [] => true | _ :: _ => false end) s.
Proof.
  induction s as [|c s IH]; intros cur in_run Hrun Hhead Hend.
  - cbn [Popup.split_ws_from countWords_from length].
    destruct cur; [contradiction | reflexivity].
  - cbn [Popup.split_ws_from countWords_from].
    assert (Hnext : isWhiteSpace c = true ->
              match s with [] => @nil char <> [] | _ :: _ => ends_ws s = false end).
    { intros Hc. destruct s as [|d s]; [|exact Hend].
      cbn [ends_ws] in Hend. congruence. }
    destruct (isWhiteSpace c) eqn:Hc.
    + destruct in_run.
      * rewrite (Hrun eq_refl).
        rewrite (IH [] true); [reflexivity | reflexivity | discriminate
                              | now apply Hnext].
      * assert (Hcur : cur <> []).
        { destruct (Hhead eq_refl) as [H|H]; [exact H|].
          cbn [starts_ws] in H. congruence. }
        cbn [length].
        rewrite (IH [] true); [| reflexivity | discriminate | now apply Hnext].
        destruct cur; [contradiction | reflexivity].
    + rewrite (IH (cur ++ [c]) false).
      * destruct cur; cbn [app]; lia.
      * discriminate.
      * intros _. left. now destruct cur.
      * destruct s as [|d s]; [now destruct cur | exact Hend].
Qed.

(** X15: for a text of at least 150 characters that is non-empty and has
    no whitespace at either end, [autoScrapeJobDescription] stores the text
    and reports success with the number of words of the text:
    [split(/\s+/)] then yields exactly the words, each non-empty and free
    of whitespace, and together they are the text without its
    whitespace. *)
Theorem autoScrape_word_count (text : jsstring)
    (previous : option jsstring) :
  piece text ->
  150 <= length text ->
  Popup.autoScrapeJobDescription (Some [Some text]) previous
  = (Popup.Success (countWords text), Some text)
  /\ length (Popup.split_ws text) = countWords text
  /\ Forall (fun w => w <> [] /\ forallb notWhiteSpace w = true)
            (Popup.split_ws text)
  /\ concat (Popup.split_ws text) = content text.
Proof.
  intros (Hne & Hs & He) Hlen.
  assert (Hcount : length (Popup.split_ws text) = countWords text).
  { unfold Popup.split_ws, countWords.
    rewrite (split_ws_length text [] false); [reflexivity | discriminate | |].
    - intros _. now right.
    - destruct text; [contradiction | exact He]. }
  split; [|split; [exact Hcount|split]].
  - unfold Popup.autoScrapeJobDescription. cbn [Popup.scrapedText].
    apply Nat.ltb_ge in Hlen. now rewrite Hlen, Hcount.
  - unfold Popup.split_ws. apply Forall_forall. intros w Hw. split.
    + pose proof (split_ws_nonempty text [] false) as H.
      rewrite Forall_forall in H. apply H; [| |exact Hw].
      * intros _. now right.
      * destruct text; [contradiction | exact He].
    + pose proof (split_ws_clean text [] false eq_refl) as H.
      rewrite Forall_forall in H. now apply H.
  - unfold Popup.split_ws. now rewrite split_ws_concat by discriminate.
Qed.

Lemma autoScrape_word_count_witness :
  Popup.autoScrapeJobDescription
    (Some [Some (collapseWhitespace (text_example ++ repeat a_ 150))]) None
  = (Popup.Success
       (countWords (collapseWhitespace (text_example ++ repeat a_ 150))),
     Some (collapseWhitespace (text_example ++ repeat a_ 150)))
  /\ length (Popup.split_ws
               (collapseWhitespace (text_example ++ repeat a_ 150)))
     = countWords (collapseWhitespace (text_example ++ repeat a_ 150))
  /\ Forall (fun w => w <> [] /\ forallb notWhiteSpace w = true)
            (Popup.split_ws
               (collapseWhitespace (text_example ++ repeat a_ 150)))
  /\ concat (Popup.split_ws
               (collapseWhitespace (text_example ++ repeat a_ 150)))
     = content (collapseWhitespace (text_example ++ repeat a_ 150)).
Proof.
  apply (autoScrape_word_count
           (collapseWhitespace (text_example ++ repeat a_ 150)) None).
  - split; [discriminate|]. split; reflexivity.
  - apply Nat.leb_le. vm_compute. reflexivity.
Defined.

(** The example text has eight words. *)
Example split_ws_example :
  length (Popup.split_ws (collapseWhitespace text_example)) = 8
  /\ countWords (collapseWhitespace text_example) = 8.
Proof. split; reflexivity. Qed.

(** *** The serverless function *)

Section BackendProperties.
Variable number : Type.
Variable JSON_parse : jsstring -> option (Backend.value number).
Variable numberTruthy : number -> bool.
Variable clampScore : number -> number.
Variable zero : number.

Lemma indexOf_first c pre rest :
  ~ In c pre ->
  Backend.indexOf c (pre ++ c :: rest) = Z.of_nat (length pre).
Proof.
  induction pre as [|x pre IH]; intros Hn.
  - cbn [app Backend.indexOf]. now rewrite N.eqb_refl.
  - cbn [app Backend.indexOf length].
    destruct (N.eqb_spec x c) as [->|_]; [exfalso; apply Hn; now left|].
    rewrite IH by (intros F; apply Hn; now right).
    destruct (Z.eqb_spec (Z.of_nat (length pre)) (-1)); lia.
Qed.

Lemma lastIndexOf_none c post :
  ~ In c post -> Backend.lastIndexOf c post = (-1)%Z.
Proof.
  induction post as [|x post IH]; intros Hn; [reflexivity|].
  cbn [Backend.lastIndexOf]. rewrite IH by (intros F; apply Hn; now right).
  cbn [Z.eqb]. destruct (N.eqb_spec x c) as [->|_]; [|reflexivity].
  exfalso. apply Hn. now left.
Qed.

Lemma lastIndexOf_last c l post :
  ~ In c post ->
  Backend.lastIndexOf c (l ++ c :: post) = Z.of_nat (length l).
Proof.
  intros Hn. induction l as [|x l IH].
  - cbn [app Backend.lastIndexOf]. rewrite (lastIndexOf_none c post Hn).
    cbn [Z.eqb]. now rewrite N.eqb_refl.
  - cbn [app Backend.lastIndexOf length]. rewrite IH.
    destruct (Z.eqb_spec (Z.of_nat (length l)) (-1)); lia.
Qed.

Lemma slice_middle (pre mid post : jsstring) :
  Backend.slice (pre ++ mid ++ post) (Z.of_nat (length pre))
                (Z.of_nat (length pre + length mid))
  = mid.
Proof.
  unfold Backend.slice. rewrite !length_app.
  destruct (Z.ltb_spec (Z.of_nat (length pre)) 0); [lia|].
  destruct (Z.ltb_spec (Z.of_nat (length pre + length mid)) 0); [lia|].
  rewrite !Z.min_l by lia.
  replace (Z.of_nat (length pre + length mid) - Z.of_nat (length pre))%Z
    with (Z.of_nat (length mid)) by lia.
  rewrite !Nat2Z.id, skipn_app, skipn_all, Nat.sub_diag. cbn [skipn app].
  rewrite firstn_app, firstn_all, Nat.sub_diag. cbn [firstn].
  apply app_nil_r.
Qed.

(** X16: when the trimmed reply is not itself JSON, [extractJsonObject]
    parses exactly the span from its first opening brace to its last
    closing brace, dropping whatever surrounds it (prose, code fences). *)
Theorem extractJsonObject_span (t pre mid post : jsstring) :
  trim t = pre ++ [Backend.LBRACE] ++ mid ++ [Backend.RBRACE] ++ post ->
  ~ In Backend.LBRACE pre ->
  ~ In Backend.RBRACE post ->
  JSON_parse (trim t) = None ->
  Backend.extractJsonObject number JSON_parse (Backend.VString number t)
  = Backend.parseOrNull number JSON_parse
      ([Backend.LBRACE] ++ mid ++ [Backend.RBRACE]).
Proof.
  intros E Hpre Hpost Hfail. cbn [Backend.extractJsonObject].
  rewrite Hfail, E. clear E Hfail. cbn [app].
  rewrite (indexOf_first Backend.LBRACE pre _ Hpre).
  replace (pre ++ Backend.LBRACE :: mid ++ Backend.RBRACE :: post)
    with ((pre ++ Backend.LBRACE :: mid) ++ Backend.RBRACE :: post)
    by (now rewrite <- app_assoc).
  rewrite (lastIndexOf_last Backend.RBRACE _ post Hpost).
  rewrite !length_app. cbn [length].
  destruct (Z.eqb_spec (Z.of_nat (length pre)) (-1)); [lia|].
  destruct (Z.eqb_spec (Z.of_nat (length pre + S (length mid))) (-1));
    [lia|].
  destruct (Z.leb_spec (Z.of_nat (length pre + S (length mid)))
                       (Z.of_nat (length pre))); [lia|].
  cbn [orb]. f_equal.
  replace ((pre ++ Backend.LBRACE :: mid) ++ Backend.RBRACE :: post)
    with (pre ++ (Backend.LBRACE :: mid ++ [Backend.RBRACE]) ++ post)
    by (rewrite <- !app_assoc; cbn [app]; now rewrite <- app_assoc).
  replace (Z.of_nat (length pre + S (length mid)) + 1)%Z
    with (Z.of_nat (length pre
                    + length (Backend.LBRACE :: mid ++ [Backend.RBRACE]))).
  - apply slice_middle.
  - cbn [length]. rewrite length_app. cbn [length]. lia.
Qed.

Lemma keywordList_pieces x :
  Forall piece (Backend.keywordList number x).
Proof.
  destruct x as [| | | | |items|]; try constructor.
  cbn [Backend.keywordList]. induction items as [|v items IH];
    [constructor|].
  cbn [filter]. destruct (Backend.isKeyword number v) eqn:Hk; [|exact IH].
  cbn [map]. constructor; [|exact IH].
  destruct v as [| | | |s| |]; try discriminate.
  cbn [Backend.isKeyword] in Hk. cbn [Backend.trimString].
  split; [|apply trim_trimmed]. intros E. now rewrite E in Hk.
Qed.

(** X17: whatever value the scoring reply parses to, every matched and
    missing keyword sent to the client is a non-empty string without
    whitespace at either end, and the advice has no whitespace at either
    end. *)
Theorem buildAtsScore_sanitized (atsObj : Backend.value number) :
  let r := Backend.buildAtsScore number clampScore zero atsObj in
  Forall piece (Backend.matchedKeywords number r)
  /\ Forall piece (Backend.missingKeywords number r)
  /\ starts_ws (Backend.advice number r) = false
  /\ ends_ws (Backend.advice number r) = false.
Proof.
  cbn [Backend.buildAtsScore Backend.matchedKeywords Backend.missingKeywords
       Backend.advice].
  split; [apply keywordList_pieces|]. split; [apply keywordList_pieces|].
  destruct (Backend.getField number "advice" atsObj);
    try (split; reflexivity).
  apply trim_trimmed.
Qed.

Lemma invalidField_iff v :
  Backend.invalidField number numberTruthy v = false <->
  exists s, v = Backend.VString number s /\ 50 <= length (trim s).
Proof.
  unfold Backend.invalidField. split.
  - destruct v as [| | | |s| |];
      try (rewrite orb_true_r; discriminate).
    rewrite orb_false_iff, Nat.ltb_ge. intros [_ H]. now exists s.
  - intros (s & -> & H). apply orb_false_iff. split.
    + cbn [Backend.truthy]. destruct s; [simpl in H; lia | reflexivity].
    + now apply Nat.ltb_ge.
Qed.

Lemma handlerStart_proceeds (method : jsstring)
    (body : Backend.value number) (key : option jsstring)
    (resume jobDescription apiKey : jsstring) :
  Backend.handlerStart number numberTruthy method body key
  = Backend.Proceed resume jobDescription apiKey
  <->
  (method = lit "POST"
   /\ (exists r, Backend.getField number "resume" body
                 = Backend.VString number r
                 /\ 50 <= length (trim r) /\ resume = trim r)
   /\ (exists j, Backend.getField number "jobDescription" body
                 = Backend.VString number j
                 /\ 50 <= length (trim j) /\ jobDescription = trim j)
   /\ key = Some apiKey /\ apiKey <> []).
Proof.
  unfold Backend.handlerStart.
  assert (Hfields : forall name,
    Backend.getField number name
      match body with
      | Backend.VUndefined _ | Backend.VNull _ => Backend.VObject number []
      | _ => body
      end = Backend.getField number name body).
  { intros name. destruct body; reflexivity. }
  rewrite !Hfields. split.
  - destruct (jseqb method (lit "OPTIONS")) eqn:Ho; [discriminate|].
    destruct (jseqb method (lit "POST")) eqn:Hp; [|discriminate].
    apply jseqb_eq in Hp. cbn [negb].
    destruct (Backend.invalidField number numberTruthy
                (Backend.getField number "resume" body)) eqn:Hr;
      [discriminate|].
    destruct (Backend.invalidField number numberTruthy
                (Backend.getField number "jobDescription" body)) eqn:Hj;
      [discriminate|].
    apply invalidField_iff in Hr, Hj.
    destruct Hr as (r & Er & Hr). destruct Hj as (j & Ej & Hj).
    rewrite Er, Ej. cbn [Backend.trimString].
    destruct key as [[|c k]|]; try discriminate.
    intros [= <- <- <-]. split; [exact Hp|].
    split; [now exists r|]. split; [now exists j|].
    split; [reflexivity | discriminate].
  - intros (-> & (r & Er & Hr & ->) & (j & Ej & Hj & ->) & -> & Hk).
    cbn [negb].
    replace (jseqb (lit "POST") (lit "OPTIONS")) with false by reflexivity.
    replace (jseqb (lit "POST") (lit "POST")) with true by reflexivity.
    cbn [negb].
    assert (Hr' : Backend.invalidField number numberTruthy
                    (Backend.getField number "resume" body) = false)
      by (apply invalidField_iff; now exists r).
    assert (Hj' : Backend.invalidField number numberTruthy
                    (Backend.getField number "jobDescription" body) = false)
      by (apply invalidField_iff; now exists j).
    rewrite Hr', Hj', Er, Ej. cbn [Backend.trimString].
    destruct apiKey; [contradiction | reflexivity].
Qed.

(** X18: the handler goes on to call the API exactly when the method is
    POST, both [resume] and [jobDescription] are strings of at least 50
    characters after trimming, and the key is set and non-empty; the texts
    it goes on with are the trimmed fields.  In particular non-string,
    missing or blank fields never reach the API. *)
Theorem handlerStart_proceeds_iff (method : jsstring)
    (body : Backend.value number) (key : option jsstring)
    (resume jobDescription apiKey : jsstring) :
  Backend.handlerStart number numberTruthy method body key
  = Backend.Proceed resume jobDescription apiKey
  <->
  (method = lit "POST"
   /\ (exists r, Backend.getField number "resume" body
                 = Backend.VString number r
                 /\ 50 <= length (trim r) /\ resume = trim r)
   /\ (exists j, Backend.getField number "jobDescription" body
                 = Backend.VString number j
                 /\ 50 <= length (trim j) /\ jobDescription = trim j)
   /\ key = Some apiKey /\ apiKey <> []).
Proof. apply handlerStart_proceeds. Qed.



End BackendProperties.

Lemma extractJsonObject_span_witness :
  Backend.extractJsonObject nat parse_empty_object
    (Backend.VString nat reply_with_prose)
  = Backend.parseOrNull nat parse_empty_object
      ([Backend.LBRACE] ++ [] ++ [Backend.RBRACE]).
Proof.
  apply (extractJsonObject_span nat parse_empty_object reply_with_prose
           (lit "Here you go: ") [] (lit " Good luck!")).
  - reflexivity.
  - vm_compute. intuition discriminate.
  - vm_compute. intuition discriminate.
  - reflexivity.
Defined.

